(** * Table PSFs and the field-of-view background maker of gammapy

    A shallow embedding of [gammapy/irf/psf/table.py] ([TablePSF],
    [EnergyDependentTablePSF], [PSF3D]) and of
    [gammapy/makers/background/fov.py] ([FoVBackgroundMaker]).

    Conventions of the embedding.
    - Numbers are exact rationals ([Q]); rounding of the floating-point
      arithmetic is not modelled.  Two rationals are compared with [==].
    - A quantity is represented by its value in the canonical unit of its
      dimension (sr^-1 for PSF values, cm^2 s for exposures, radian for
      angles, one fixed energy unit), so [Quantity.to(unit)] is the
      identity.
    - A Python exception is a [Raise] result.
    - The sites where numpy divides an array in place ([data /= integral],
      [weights /= weights.sum()]) produce [npfloat] values, which have the
      non-finite results of a division by zero.
    - The numbers of the background maker (counts, predicted background,
      parameter values) are [npfloat] values, so that a [nan] or an infinity
      in the data reaches the comparisons and the division of
      [_scale_bkg]. *)

From Stdlib Require Import QArith Qabs Lia Lqa List String ZArith Bool.
From stdpp Require Import gmap strings.
Import ListNotations.

(** ** Exceptions *)

Inductive exn : Type :=
| ValueError
| KeyError (key : string)
| IndexError.

Inductive result (A : Type) : Type :=
| Ok (a : A)
| Raise (e : exn).
Arguments Ok {A} a.
Arguments Raise {A} e.

#[global] Instance result_ret : MRet result := fun A a => Ok a.
#[global] Instance result_bind : MBind result := fun A B f m =>
  match m with
  | Ok a => f a
  | Raise e => Raise e
  end.

(** [d[key]] on a Python dict. *)
Definition getitem {V} (d : gmap string V) (key : string) : result V :=
  match d !! key with
  | Some v => Ok v
  | None => Raise (KeyError key)
  end.

(** [l[-1]] on a sequence. *)
Definition last_item {A} (l : list A) : result A :=
  match last l with
  | Some x => Ok x
  | None => Raise IndexError
  end.

(** [l[0]] on a sequence. *)
Definition first_item {A} (l : list A) : result A :=
  match l with
  | x :: _ => Ok x
  | [] => Raise IndexError
  end.

(** ** numpy on rationals *)

Definition Qltb (x y : Q) : bool := negb (Qle_bool y x).

Definition Qsum (l : list Q) : Q := fold_right Qplus 0%Q l.

Definition of_nat (n : nat) : Q := inject_Z (Z.of_nat n).

(** [np.pi]: the double nearest to pi, an exact dyadic rational. *)
Definition np_pi : Q := (884279719003555 # 281474976710656)%Q.

(** [np.linspace(start, stop, num)] (endpoint included). *)
Definition linspace (start stop : Q) (num : nat) : list Q :=
  match num with
  | O => []
  | S O => [start]
  | S n =>
      map (fun i => (start + of_nat i * ((stop - start) / of_nat n))%Q)
          (seq 0 num)
  end.

(** [np.argmin]: index of the first occurrence of the minimum; raises on an
    empty sequence. *)
Fixpoint argmin_from (best_i : nat) (best : Q) (i : nat) (l : list Q) : nat :=
  match l with
  | [] => best_i
  | x :: t =>
      if Qltb x best then argmin_from i x (S i) t
      else argmin_from best_i best (S i) t
  end.

Definition argmin (l : list Q) : result nat :=
  match l with
  | [] => Raise ValueError
  | x :: t => Ok (argmin_from 0 x 1 t)
  end.

(** Values of a float array after a numpy division. *)
Inductive npfloat : Type :=
| Finite (q : Q)
| PosInf
| NegInf
| NaN.

Definition is_finite (x : npfloat) : bool :=
  match x with Finite _ => true | _ => false end.

(** [x / y] in numpy: a zero divisor gives [nan] or a signed [inf] (with a
    warning), never an exception. *)
Definition np_divide (x y : Q) : npfloat :=
  if Qeq_bool y 0 then
    (if Qeq_bool x 0 then NaN else if Qltb 0 x then PosInf else NegInf)
  else Finite (x / y)%Q.

(** Sum of a float array: any [nan] or infinity makes the sum non-finite
    (represented here by [NaN] for +inf-inf and the infinities otherwise). *)
Definition np_add (x y : npfloat) : npfloat :=
  match x, y with
  | Finite a, Finite b => Finite (a + b)%Q
  | NaN, _ | _, NaN => NaN
  | PosInf, NegInf | NegInf, PosInf => NaN
  | PosInf, _ | _, PosInf => PosInf
  | NegInf, _ | _, NegInf => NegInf
  end.

Definition np_sum (l : list npfloat) : npfloat :=
  fold_right np_add (Finite 0) l.

(** [x <= 0.0] on a float: true for the negative infinity, false for [nan]
    (every comparison with [nan] is false). *)
Definition np_le_zero (x : npfloat) : bool :=
  match x with
  | Finite q => Qle_bool q 0
  | NegInf => true
  | PosInf | NaN => false
  end.

(** [x / y] on floats ([np.float64] scalars): as [np_divide] on finite
    values; [nan] propagates, an infinity over an infinity is [nan], a
    finite value over an infinity is 0, an infinity over a finite value is
    an infinity of the sign of the quotient. *)
Definition np_true_divide (x y : npfloat) : npfloat :=
  match x, y with
  | Finite a, Finite b => np_divide a b
  | NaN, _ | _, NaN => NaN
  | Finite _, (PosInf | NegInf) => Finite 0
  | (PosInf | NegInf), (PosInf | NegInf) => NaN
  | PosInf, Finite b => if Qltb b 0 then NegInf else PosInf
  | NegInf, Finite b => if Qltb b 0 then PosInf else NegInf
  end.

(** ** N-dimensional arrays

    A numpy array is its shape and its elements in row-major (C) order. *)

Record ndarray : Type := mk_ndarray { shape : list nat; flat : list Q }.

Definition size_of (s : list nat) : nat := fold_right Nat.mul 1%nat s.

Definition array_wf (a : ndarray) : Prop :=
  length (flat a) = size_of (shape a).

(** All multi-indices of a shape, in row-major order. *)
Fixpoint indices (s : list nat) : list (list nat) :=
  match s with
  | [] => [[]]
  | n :: s' => flat_map (fun i => map (cons i) (indices s')) (seq 0 n)
  end.

(** Row-major offset of a multi-index. *)
Fixpoint offset (s idx : list nat) : nat :=
  match s, idx with
  | _ :: s', i :: idx' => (i * size_of s' + offset s' idx')%nat
  | _, _ => 0%nat
  end.

(** [a.T] / [a.transpose()]: the axes are reversed; the element at
    multi-index [idx] of the result is the element at [rev idx] of [a]. *)
Definition transpose (a : ndarray) : ndarray :=
  {| shape := rev (shape a);
     flat := map (fun idx => nth (offset (shape a) (rev idx)) (flat a) 0%Q)
                 (indices (rev (shape a))) |}.

(** [a[0]] on the leading axis and [a[np.newaxis]]. *)
Definition take_first (a : ndarray) : result ndarray :=
  match shape a with
  | S _ :: s => Ok {| shape := s; flat := firstn (size_of s) (flat a) |}
  | _ => Raise IndexError
  end.

Definition newaxis (a : ndarray) : ndarray :=
  {| shape := 1%nat :: shape a; flat := flat a |}.

(** [a.squeeze()]: the axes of length one are removed. *)
Definition squeeze (a : ndarray) : ndarray :=
  {| shape := List.filter (fun n => negb (Nat.eqb n 1)) (shape a);
     flat := flat a |}.

(** [a[0, :]]: the first row; the array needs two axes at least. *)
Definition first_row (a : ndarray) : result ndarray :=
  match shape a with
  | S _ :: n :: s =>
      Ok {| shape := n :: s; flat := firstn (size_of (n :: s)) (flat a) |}
  | _ => Raise IndexError
  end.

(** ** Axes

    Modelled from the spec: [MapAxis] of [gammapy.maps] (not in the source
    tree).  A named, ordered 1-D coordinate axis with an interpolation mode,
    its [center] and [edges] values; [nbin] is the number of bins (for a node
    axis the count of nodes). *)

Inductive interp_mode : Type := Lin | Log.

Record MapAxis : Type := mk_axis {
  name : string;
  interp : interp_mode;
  center : list Q;
  edges : list Q
}.

Definition nbin (ax : MapAxis) : nat := length (center ax).

(** The coordinate transforms of [MapAxis] that derive bin edges from nodes
    and bin centers from edges (for [Log] they involve square roots), and the
    interpolation mode [MapAxes.from_table] gives the axis of a name, are
    parameters. *)
Class AxisCoord : Type := {
  node_edges : interp_mode -> list Q -> list Q;
  edge_centers : interp_mode -> list Q -> list Q;
  gadf_interp : string -> interp_mode
}.

Section Axes.
Context `{AxisCoord}.

(** [MapAxis.from_nodes(nodes, name=..., interp=...)].  The constructor
    keeps the nodes as they are given; the axis invariant of the spec
    (values strictly monotonic) is not checked here, it is the hypothesis
    [increasing] of the statements that depend on it. *)
Definition from_nodes (nodes : list Q) (nm : string) (i : interp_mode)
  : MapAxis :=
  {| name := nm; interp := i; center := nodes; edges := node_edges i nodes |}.

(** [MapAxis.from_edges(edges, name=..., interp=...)]; as for
    [from_nodes], the edges are kept as they are given. *)
Definition from_edges (e : list Q) (nm : string) (i : interp_mode)
  : MapAxis :=
  {| name := nm; interp := i; center := edge_centers i e; edges := e |}.
End Axes.

(** [axis.assert_name(required)] *)
Definition assert_name (ax : MapAxis) (required : string) : result unit :=
  if String.eqb (name ax) required then Ok tt else Raise ValueError.

(** [axes.assert_names(required)] *)
Fixpoint assert_names (axes : list MapAxis) (required : list string)
  : result unit :=
  match axes, required with
  | [], [] => Ok tt
  | ax :: axes', nm :: required' =>
      _ ← assert_name ax nm; assert_names axes' required'
  | _, _ => Raise ValueError
  end.

(** Modelled from the spec: the shape validation of [NDDataArray] (not in the
    source tree): [data.shape[i] == axes[i].nbin] for all [i], else the
    construction fails with a shape-mismatch error. *)
Definition check_shape (axes : list MapAxis) (data_shape : list nat)
  : result unit :=
  if bool_decide (data_shape = map nbin axes) then Ok tt
  else Raise ValueError.

(** The numerical services of [NDDataArray] and of [gammapy.utils.gauss],
    which are not in the source tree, are parameters of the PSF classes. *)
Class RadIntegrator : Type :=
  (** [NDDataArray._integrate_rad((rad_max,))] of a 1-dim array over [rad] *)
  _integrate_rad : MapAxis -> list Q -> Q -> Q.

Class Interpolator : Type := {
  (** [NDDataArray._interpolate(points)]: the array over [axes] interpolated
      at one coordinate array per axis, broadcast against each other *)
  _interpolate : list MapAxis -> ndarray -> list (list Q) -> ndarray;
  (** [Gauss2DPDF(sigma)(r)] *)
  gauss2d_pdf : Q -> Q -> Q
}.

(** ** TablePSF *)

Module TablePSF.

Record t : Type := mk { rad_axis : MapAxis; data : list Q }.

Definition init (rad_axis : MapAxis) (data : list Q) : result t :=
  _ ← assert_name rad_axis "rad";
  _ ← check_shape [rad_axis] [length data];
  Ok {| rad_axis := rad_axis; data := data |}.

(** [TablePSF(rad_axis, data)] for a data array of any number of axes. *)
Definition init_array (rad_axis : MapAxis) (data : ndarray) : result t :=
  _ ← assert_name rad_axis "rad";
  _ ← check_shape [rad_axis] (shape data);
  Ok {| rad_axis := rad_axis; data := flat data |}.

Section Methods.
Context `{AxisCoord} `{RadIntegrator} `{Interpolator}.

Definition from_shape (shape : string) (width : Q) (rad : list Q)
  : result t :=
  data ←
    (if String.eqb shape "disk" then
       let amplitude := (1 / (np_pi * width ^ 2))%Q in
       Ok (map (fun r => if Qltb r width then amplitude else 0%Q) rad)
     else if String.eqb shape "gauss" then
       Ok (map (gauss2d_pdf width) rad)
     else Raise ValueError);
  init (from_nodes rad "rad" Lin) data.

Definition containment (psf : t) (rad_max : list Q) : list Q :=
  map (_integrate_rad (rad_axis psf) (data psf)) rad_max.

Definition containment_radius (psf : t) (fraction : list Q)
  : result (list Q) :=
  c_last ← last_item (center (rad_axis psf));
  let rad_max := linspace 0 c_last (10 * nbin (rad_axis psf)) in
  let containment := containment psf rad_max in
  fraction_idx ←
    mapM (fun f => argmin (map (fun c => Qabs (c - f)) containment))
         fraction;
  mapM (fun i : nat =>
          match rad_max !! i with
          | Some r => Ok r
          | None => Raise IndexError
          end) fraction_idx.

(** The data array after [self.data /= integral]. *)
Definition normalize (psf : t) : result (list npfloat) :=
  e_last ← last_item (edges (rad_axis psf));
  integral ← first_item (containment psf [e_last]);
  Ok (map (fun d => np_divide d integral) (data psf)).
End Methods.

End TablePSF.

(** Modelled from the spec: [NDDataArray._integrate_rad] (not in the source
    tree), "the radial integral of 2 pi r dP/dOmega(r) dr from 0 to
    [rad_max]", where the density dP/dOmega is the stored table interpolated
    linearly between the rad nodes and not extrapolated outside of them.
    On one segment between two nodes the integrand is a polynomial of degree
    two in [r], for which Simpson's rule is the exact integral. *)

Definition interp_lin (a fa b fb r : Q) : Q :=
  (fa + (fb - fa) * ((r - a) / (b - a)))%Q.

Definition rad_integrand (a fa b fb r : Q) : Q :=
  (2 * np_pi * r * interp_lin a fa b fb r)%Q.

Definition simpson (g : Q -> Q) (x1 x2 : Q) : Q :=
  ((x2 - x1) / 6 * (g x1 + 4 * g ((x1 + x2) / 2) + g x2))%Q.

(** Integral over the part of the segment [[a, b]] that lies below [R]. *)
Definition segment_integral (a fa b fb R : Q) : Q :=
  if Qle_bool R a then 0%Q
  else simpson (rad_integrand a fa b fb) a (if Qle_bool R b then R else b).

Fixpoint integrate_nodes (pts : list (Q * Q)) (R : Q) : Q :=
  match pts with
  | (a, fa) :: rest =>
      match rest with
      | (b, fb) :: _ =>
          (segment_integral a fa b fb R + integrate_nodes rest R)%Q
      | [] => 0%Q
      end
  | [] => 0%Q
  end.

Definition spec_integrate_rad : RadIntegrator :=
  fun ax data R => integrate_nodes (combine (center ax) data) R.

(** ** EnergyDependentTablePSF *)

(** The spectral models of [gammapy.modeling.models] and the log-spaced
    energy edges of [MapAxis.from_energy_bounds], not in the source tree. *)
Class SpectralModels : Type := {
  (** [PowerLawSpectralModel()(energy)], the default spectrum (index 2) *)
  power_law : Q -> Q;
  (** [TemplateSpectralModel(energy, values)(e)] *)
  template : list Q -> list Q -> Q -> Q;
  (** [MapAxis.from_energy_bounds(e_min, e_max, n_bins).edges] *)
  energy_bounds_edges : Q -> Q -> nat -> list Q
}.

Module EnergyDependentTablePSF.

Record t : Type := mk {
  energy_axis_true : MapAxis;
  rad_axis : MapAxis;
  exposure : list Q;
  data : ndarray
}.

Definition init (energy_axis_true rad_axis : MapAxis)
    (exposure : option (list Q)) (data : ndarray) : result t :=
  let axes := [energy_axis_true; rad_axis] in
  _ ← assert_names axes ["energy_true"; "rad"];
  _ ← check_shape axes (shape data);
  Ok {| energy_axis_true := energy_axis_true;
        rad_axis := rad_axis;
        exposure := match exposure with
                    | None => repeat 1%Q (nbin energy_axis_true)
                    | Some e => e
                    end;
        data := data |}.

(** Modelled from the spec: the [gtpsf] HDU list, "a THETA table with
    column Theta defines the rad axis (node-valued); a PSF table with
    columns Energy, Exposure, PSF defines the energy axis (log-interpolated,
    node-valued) and the data cube". *)
Record hdulist : Type := mk_hdulist {
  THETA_Theta : list Q;
  PSF_Energy : list Q;
  PSF_Exposure : list Q;
  PSF_PSF : ndarray
}.

Section Methods.
Context `{AxisCoord} `{Interpolator} `{SpectralModels}.

Definition from_hdulist (hdu_list : hdulist) : result t :=
  let rad := THETA_Theta hdu_list in
  let rad_axis := from_nodes rad "rad" Lin in
  let energy := PSF_Energy hdu_list in
  let energy_axis_true := from_nodes energy "energy_true" Log in
  let exposure := PSF_Exposure hdu_list in
  let data := PSF_PSF hdu_list in
  init energy_axis_true rad_axis (Some exposure) data.

Definition to_hdulist (psf : t) : hdulist :=
  {| THETA_Theta := center (rad_axis psf);
     PSF_Energy := center (energy_axis_true psf);
     PSF_Exposure := exposure psf;
     PSF_PSF := data psf |}.

Definition evaluate (psf : t) (energy rad : option (list Q)) : ndarray :=
  let energy := default (center (energy_axis_true psf)) energy in
  let rad := default (center (rad_axis psf)) rad in
  _interpolate [energy_axis_true psf; rad_axis psf] (data psf)
    [energy; rad].

(** [table_psf_at_energy(energy)]; the interpolation method is the one of
    the interpolator. *)
Definition table_psf_at_energy (psf : t) (energy : list Q)
  : result TablePSF.t :=
  psf_value ← first_row (evaluate psf (Some energy) None);
  TablePSF.init_array (rad_axis psf) psf_value.

(** The weight vector of [table_psf_in_energy_range]:
    [weights = spectrum(energy) * exposure(energy)] on the log-spaced
    edges of the energy range. *)
Definition table_psf_in_energy_range_raw_weights (psf : t)
    (energy_range : Q * Q) (spectrum : option (Q -> Q)) (n_bins : nat)
  : list Q :=
  let spectrum := default power_law spectrum in
  let exposure :=
    template (center (energy_axis_true psf)) (exposure psf) in
  let '(e_min, e_max) := energy_range in
  let energy := energy_bounds_edges e_min e_max n_bins in
  map (fun e => (spectrum e * exposure e)%Q) energy.

(** The weight vector after [weights /= weights.sum()]. *)
Definition table_psf_in_energy_range_weights (psf : t)
    (energy_range : Q * Q) (spectrum : option (Q -> Q)) (n_bins : nat)
  : list npfloat :=
  let weights :=
    table_psf_in_energy_range_raw_weights psf energy_range spectrum
      n_bins in
  map (fun w => np_divide w (Qsum weights)) weights.
End Methods.

End EnergyDependentTablePSF.

(** ** PSF3D *)

Module PSF3D.

Record t : Type := mk {
  energy_axis_true : MapAxis;
  offset_axis : MapAxis;
  rad_axis : MapAxis;
  data : ndarray;
  meta : gmap string Q
}.

Definition init (energy_axis_true offset_axis rad_axis : MapAxis)
    (data : ndarray) (meta : option (gmap string Q)) : result t :=
  let axes := [energy_axis_true; offset_axis; rad_axis] in
  _ ← assert_names axes ["energy_true"; "offset"; "rad"];
  _ ← check_shape axes (shape data);
  Ok {| energy_axis_true := energy_axis_true;
        offset_axis := offset_axis;
        rad_axis := rad_axis;
        data := data;
        meta := default ∅ meta |}.

Definition energy_thresh_lo (psf : t) : result Q :=
  getitem (meta psf) "LO_THRES".

Definition energy_thresh_hi (psf : t) : result Q :=
  getitem (meta psf) "HI_THRES".

(** Modelled from the spec: the GADF [psf_table] HDU, "one binary table row
    with columns following ENERG_LO/HI, THETA_LO/HI, RAD_LO/HI defining the
    three axes, plus RPSF and header keys LO_THRES, HI_THRES".  The [RPSF]
    column is the array of all rows (one row). *)
Record table : Type := mk_table {
  ENERG_LO : list Q; ENERG_HI : list Q;
  THETA_LO : list Q; THETA_HI : list Q;
  RAD_LO : list Q; RAD_HI : list Q;
  RPSF : ndarray;
  header : gmap string Q
}.

Section Methods.
Context `{AxisCoord} `{Interpolator}.

Definition evaluate (psf : t) (energy offset rad : option (list Q))
  : ndarray :=
  let energy := default (center (energy_axis_true psf)) energy in
  let offset := default (center (offset_axis psf)) offset in
  let rad := default (center (rad_axis psf)) rad in
  _interpolate [energy_axis_true psf; offset_axis psf; rad_axis psf]
    (data psf) [energy; offset; rad].

(** Modelled from the spec: the edge-pair convention of the axis table
    ([MapAxes.to_table] and [MapAxes.from_table] with
    [format="gadf-dl3"], not in the source tree): bin [i] of an axis is
    stored as the pair of its lower and upper edge. *)
Definition edges_lo (e : list Q) : list Q := removelast e.
Definition edges_hi (e : list Q) : list Q := tl e.

Definition edges_from_lo_hi (lo hi : list Q) : result (list Q) :=
  h ← last_item hi; Ok (lo ++ [h]).

Definition axis_from_table (lo hi : list Q) (nm : string)
  : result MapAxis :=
  e ← edges_from_lo_hi lo hi; Ok (from_edges e nm (gadf_interp nm)).

Definition from_table (tbl : table) : result t :=
  energy_axis_true ←
    axis_from_table (ENERG_LO tbl) (ENERG_HI tbl) "energy_true";
  offset_axis ← axis_from_table (THETA_LO tbl) (THETA_HI tbl) "offset";
  rad_axis ← axis_from_table (RAD_LO tbl) (RAD_HI tbl) "rad";
  row ← take_first (RPSF tbl);
  let data := transpose row in
  init energy_axis_true offset_axis rad_axis data (Some (header tbl)).

Definition to_hdulist (psf : t) : result table :=
  let rpsf := newaxis (transpose (data psf)) in
  lo_thres ← energy_thresh_lo psf;
  hi_thres ← energy_thresh_hi psf;
  Ok {| ENERG_LO := edges_lo (edges (energy_axis_true psf));
        ENERG_HI := edges_hi (edges (energy_axis_true psf));
        THETA_LO := edges_lo (edges (offset_axis psf));
        THETA_HI := edges_hi (edges (offset_axis psf));
        RAD_LO := edges_lo (edges (rad_axis psf));
        RAD_HI := edges_hi (edges (rad_axis psf));
        RPSF := rpsf;
        header := <["HI_THRES" := hi_thres]>
                    (<["LO_THRES" := lo_thres]> ∅) |}.

Definition to_energy_dependent_table_psf (psf : t) (theta : list Q)
    (rad exposure : option (list Q)) : result EnergyDependentTablePSF.t :=
  let rad_axis :=
    match rad with
    | Some r => from_edges r "rad" Lin
    | None => rad_axis psf
    end in
  let psf_value :=
    squeeze (evaluate psf None (Some theta) (Some (center rad_axis))) in
  EnergyDependentTablePSF.init (energy_axis_true psf) rad_axis exposure
    (transpose psf_value).

Definition to_table_psf (psf : t) (energy theta : list Q)
  : result TablePSF.t :=
  let psf_value := squeeze (evaluate psf (Some energy) (Some theta) None) in
  TablePSF.init_array (rad_axis psf) psf_value.
End Methods.

End PSF3D.

(** ** FoVBackgroundMaker

    The dataset, its models and their parameters are mutable Python objects;
    the embedding passes the dataset and the warning log explicitly.  The
    counts, the predicted background and the parameter values are floats
    ([npfloat]): a [nan] in the data reaches the totals of [_scale_bkg] and
    fails both of its [<= 0.0] tests. *)

Module FoVBackgroundMaker.

Record Par : Type := mk_par { value : npfloat; frozen : bool }.

(** A model of the dataset: its name, [spectral_model.norm] and its other
    parameters. *)
Record Model : Type := mk_model {
  model_name : string;
  norm : Par;
  other_parameters : list Par
}.

Record Dataset : Type := mk_dataset {
  ds_name : string;
  counts : list npfloat;
  mask_fit : option (list bool);
  models : option (list Model)
}.

Record t : Type := mk {
  method : string;
  exclusion_mask : option (list bool);
  spectral_model_tag : string
}.

(** The dataset and fit interface of [gammapy.datasets] and
    [gammapy.modeling], not in the source tree. *)
Class DatasetOps : Type := {
  (** [dataset.mask] *)
  mask : Dataset -> list bool;
  (** [dataset.npred_background().data] *)
  npred_background : Dataset -> list npfloat;
  (** [exclusion_mask.interp_to_geom(geom=dataset.counts.geom)] *)
  interp_to_geom : list bool -> Dataset -> list bool;
  (** the norm and the other parameters of
      [Model.create(tag, model_type="spectral")] *)
  create_spectral_model : string -> Par * list Par;
  (** [Fit(datasets).run()]: the value the optimiser leaves in each
      parameter, and [fit_result.success] *)
  fit_run : Dataset -> list npfloat * bool
}.

Definition init (method : string) (exclusion_mask : option (list bool))
    (spectral_model_tag : string) : result t :=
  if String.eqb method "fit" || String.eqb method "scale" then
    match index 0 "norm" spectral_model_tag with
    | None => Raise ValueError
    | Some _ =>
        Ok {| method := method; exclusion_mask := exclusion_mask;
              spectral_model_tag := spectral_model_tag |}
    end
  else Raise ValueError.

Definition bkg_name (dataset : Dataset) : string :=
  String.append (ds_name dataset) "-bkg".

(** [models[key]] *)
Definition models_getitem (ms : option (list Model)) (key : string)
  : result Model :=
  match ms with
  | None => Raise ValueError
  | Some l =>
      match find (fun m => String.eqb (model_name m) key) l with
      | Some m => Ok m
      | None => Raise ValueError
      end
  end.

(** [dataset.background_model]: the model registered as
    ["<dataset.name>-bkg"], or [None]. *)
Definition background_model (dataset : Dataset) : option Model :=
  match models_getitem (models dataset) (bkg_name dataset) with
  | Ok m => Some m
  | Raise _ => None
  end.

Definition with_mask_fit (dataset : Dataset) (m : option (list bool))
  : Dataset :=
  {| ds_name := ds_name dataset; counts := counts dataset;
     mask_fit := m; models := models dataset |}.

Definition with_models (dataset : Dataset) (ms : option (list Model))
  : Dataset :=
  {| ds_name := ds_name dataset; counts := counts dataset;
     mask_fit := mask_fit dataset; models := ms |}.

(** [models[key].spectral_model.norm.value = v] on the first model of that
    name. *)
Fixpoint set_norm_value (key : string) (v : npfloat) (l : list Model)
  : list Model :=
  match l with
  | [] => []
  | m :: l' =>
      if String.eqb (model_name m) key then
        {| model_name := model_name m;
           norm := {| value := v; frozen := frozen (norm m) |};
           other_parameters := other_parameters m |} :: l'
      else m :: set_norm_value key v l'
  end.

(** [data[mask].sum()] *)
Definition masked_sum (data : list npfloat) (msk : list bool) : npfloat :=
  np_sum
    (map fst (List.filter (fun p : npfloat * bool => snd p)
                (combine data msk))).

(** The parameters of a model and of all models ([datasets.parameters]). *)
Definition model_parameters (m : Model) : list Par :=
  norm m :: other_parameters m.

Definition parameters (l : list Model) : list Par :=
  flat_map model_parameters l.

(** Writes the parameters [ps], in the order of [parameters], back into
    the models. *)
Definition model_with_parameters (m : Model) (ps : list Par) : Model :=
  match ps with
  | n :: o =>
      {| model_name := model_name m; norm := n; other_parameters := o |}
  | [] => m
  end.

Fixpoint with_parameters (l : list Model) (ps : list Par) : list Model :=
  match l with
  | [] => []
  | m :: l' =>
      let k := length (model_parameters m) in
      model_with_parameters m (firstn k ps) :: with_parameters l' (skipn k ps)
  end.

Definition freeze (p : Par) : Par := {| value := value p; frozen := true |}.

Definition set_frozen (p : Par) (b : bool) : Par :=
  {| value := value p; frozen := b |}.

(** A free parameter takes the value of the optimiser. *)
Definition set_fitted (p : Par) (v : npfloat) : Par :=
  if frozen p then p else {| value := v; frozen := frozen p |}.

Fixpoint zip_with_rest {A} (f : Par -> A -> Par) (ps : list Par)
    (xs : list A) : list Par :=
  match ps, xs with
  | p :: ps', x :: xs' => f p x :: zip_with_rest f ps' xs'
  | _, _ => ps
  end.

(** First loop of [_fit_bkg]: every parameter that is not a parameter of
    the background model is frozen. *)
Fixpoint freeze_others (key : string) (l : list Model) : list Model :=
  match l with
  | [] => []
  | m :: l' =>
      if String.eqb (model_name m) key then
        m :: map (fun m' => model_with_parameters m'
                              (map freeze (model_parameters m'))) l'
      else
        model_with_parameters m (map freeze (model_parameters m))
          :: freeze_others key l'
  end.

Section Methods.
Context `{DatasetOps}.

Definition make_default_fov_background_model (self : t)
    (dataset : Dataset) : Dataset :=
  let '(n, o) := create_spectral_model (spectral_model_tag self) in
  let bkg_model :=
    {| model_name := bkg_name dataset; norm := n;
       other_parameters := o |} in
  match models dataset with
  | None => with_models dataset (Some [bkg_model])
  | Some l => with_models dataset (Some (l ++ [bkg_model]))
  end.

Definition _fit_bkg (dataset : Dataset) (log : list string)
  : Dataset * list string :=
  let l := default [] (models dataset) in
  let parameters_frozen := map frozen (parameters l) in
  let l1 := freeze_others (bkg_name dataset) l in
  let dataset1 := with_models dataset (Some l1) in
  let '(values, success) := fit_run dataset1 in
  let l2 := with_parameters l1
              (zip_with_rest set_fitted (parameters l1) values) in
  let log' :=
    if success then log
    else log ++ [String.append
                     "FoVBackgroundMaker failed: Fit did not converge for "
                     (ds_name dataset)] in
  let l3 := with_parameters l2
              (zip_with_rest set_frozen (parameters l2)
                 parameters_frozen) in
  (with_models dataset (Some l3), log').

Definition _scale_bkg (dataset : Dataset) (log : list string)
  : result (Dataset * list string) :=
  let msk := mask dataset in
  let count_tot := masked_sum (counts dataset) msk in
  let bkg_tot := masked_sum (npred_background dataset) msk in
  if np_le_zero count_tot then
    Ok (dataset,
        log ++ [String.append
                    "FoVBackgroundMaker failed. No counts found outside exclusion mask for "
                    (ds_name dataset)])
  else if np_le_zero bkg_tot then
    Ok (dataset,
        log ++ [String.append
                    "FoVBackgroundMaker failed. No positive background found outside exclusion mask for "
                    (ds_name dataset)])
  else
    let value := np_true_divide count_tot bkg_tot in
    _ ← models_getitem (models dataset) (bkg_name dataset);
    Ok (with_models dataset
          (Some (set_norm_value (bkg_name dataset) value
                   (default [] (models dataset)))),
        log).

Definition run (self : t) (dataset : Dataset) (log : list string)
  : result (Dataset * list string) :=
  let mask_fit0 := mask_fit dataset in
  let dataset :=
    match exclusion_mask self with
    | Some excl =>
        with_mask_fit dataset (Some (interp_to_geom excl dataset))
    | None => dataset
    end in
  let dataset :=
    match background_model dataset with
    | None => make_default_fov_background_model self dataset
    | Some _ => dataset
    end in
  '(dataset, log) ←
    (if String.eqb (method self) "fit" then Ok (_fit_bkg dataset log)
     else _scale_bkg dataset log);
  Ok (with_mask_fit dataset mask_fit0, log).
End Methods.

(** *** Notions used to state the properties of the maker *)

(** The dataset on which [run] calls [_fit_bkg] or [_scale_bkg]: the fit
    mask is the exclusion mask and a default background model is there. *)
Definition prepared `{DatasetOps} (self : t) (dataset : Dataset) : Dataset :=
  let dataset :=
    match exclusion_mask self with
    | Some excl => with_mask_fit dataset (Some (interp_to_geom excl dataset))
    | None => dataset
    end in
  match background_model dataset with
  | None => make_default_fov_background_model self dataset
  | Some _ => dataset
  end.

(** The total of the data over the bins that the mask selects: bin by bin,
    a selected bin adds its value. *)
Fixpoint masked_total (data : list npfloat) (msk : list bool) : npfloat :=
  match data, msk with
  | d :: data', m :: msk' =>
      if m then np_add d (masked_total data' msk')
      else masked_total data' msk'
  | _, _ => Finite 0
  end.

(** [x <= 0] and [0 < x] for a float total; neither holds for [nan]. *)
Definition np_nonpos (x : npfloat) : Prop :=
  match x with
  | Finite q => (q <= 0)%Q
  | NegInf => True
  | PosInf | NaN => False
  end.

Definition np_pos (x : npfloat) : Prop :=
  match x with
  | Finite q => (0 < q)%Q
  | PosInf => True
  | NegInf | NaN => False
  end.

Definition find_model (key : string) (l : list Model) : option Model :=
  find (fun m => String.eqb (model_name m) key) l.

(** The dataset handed to the optimiser by [_fit_bkg]. *)
Definition fit_input (ds0 : Dataset) : Dataset :=
  with_models ds0
    (Some (freeze_others (bkg_name ds0) (default [] (models ds0)))).

(** The models after the two write-backs of [_fit_bkg]: the fitted values,
    then the saved frozen flags. *)
Definition pipeline (l : list Model) (vals : list npfloat)
    (flags : list bool)
  : list Model :=
  with_parameters l
    (zip_with_rest set_frozen
       (zip_with_rest set_fitted (parameters l) vals) flags).

(** A parameter after the run keeps its frozen flag, and is unchanged when
    it was frozen. *)
Definition par_kept (p0 p' : Par) : Prop :=
  frozen p' = frozen p0 /\ (frozen p0 = true -> p' = p0).

End FoVBackgroundMaker.

(** ** Linear instances of the parameters

    The linear coordinate transform of an axis (bin centers are the midpoints
    of the edges, bin edges the midpoints of the nodes, extended by half a
    bin at both ends), used to run the definitions on concrete inputs. *)

Definition midpoints (e : list Q) : list Q :=
  zip_with (fun a b => ((a + b) / 2)%Q) e (tl e).

Definition lin_node_edges (nodes : list Q) : list Q :=
  match nodes, midpoints nodes, last nodes, last (midpoints nodes) with
  | x :: _, m :: _, Some y, Some m' =>
      (2 * x - m)%Q :: midpoints nodes ++ [(2 * y - m')%Q]
  | _, _, _, _ => nodes
  end.

Definition lin_axis_coord : AxisCoord :=
  {| node_edges := fun _ => lin_node_edges;
     edge_centers := fun _ => midpoints;
     gadf_interp := fun nm => if String.eqb nm "energy_true" then Log else Lin |}.

(** ** Notions used to state the properties *)

(** [k] is the index of the first minimum of [l]. *)
Definition first_min (l : list Q) (k : nat) : Prop :=
  exists vk, l !! k = Some vk /\
    (forall j v, l !! j = Some v -> (vk <= v)%Q) /\
    (forall j v, (j < k)%nat -> l !! j = Some v -> (vk < v)%Q).

(** A multi-index is valid for a shape when each component is in range. *)
Definition valid_index (s idx : list nat) : Prop := Forall2 lt idx s.

(** An axis that the edge-pair table of [MapAxes.to_table] and
    [MapAxes.from_table] represents: it has at least two edges (one bin), and
    its centers are the bin centers of its edges in the interpolation mode
    that the table format gives the axis of its name. *)
Definition edge_defined `{AxisCoord} (ax : MapAxis) : Prop :=
  (2 <= length (edges ax))%nat /\
  center ax = edge_centers (gadf_interp (name ax)) (edges ax).

Definition PSF3D_roundtrips `{AxisCoord} (psf : PSF3D.t) : Prop :=
  exists tbl psf',
    PSF3D.to_hdulist psf = Ok tbl /\
    PSF3D.from_table tbl = Ok psf' /\
    center (PSF3D.rad_axis psf') = center (PSF3D.rad_axis psf) /\
    center (PSF3D.energy_axis_true psf')
      = center (PSF3D.energy_axis_true psf) /\
    center (PSF3D.offset_axis psf') = center (PSF3D.offset_axis psf) /\
    PSF3D.data psf' = PSF3D.data psf.

Definition EnergyDependentTablePSF_roundtrips `{AxisCoord}
    (psf : EnergyDependentTablePSF.t) : Prop :=
  exists psf',
    EnergyDependentTablePSF.from_hdulist
      (EnergyDependentTablePSF.to_hdulist psf) = Ok psf' /\
    center (EnergyDependentTablePSF.rad_axis psf')
      = center (EnergyDependentTablePSF.rad_axis psf) /\
    center (EnergyDependentTablePSF.energy_axis_true psf')
      = center (EnergyDependentTablePSF.energy_axis_true psf) /\
    EnergyDependentTablePSF.exposure psf'
      = EnergyDependentTablePSF.exposure psf /\
    EnergyDependentTablePSF.data psf' = EnergyDependentTablePSF.data psf.

(** Concrete objects. *)
Definition ex_energy_axis : MapAxis :=
  @from_edges lin_axis_coord [1; 2; 4]%Q "energy_true" Log.
Definition ex_offset_axis : MapAxis :=
  @from_edges lin_axis_coord [0; 1]%Q "offset" Lin.
Definition ex_rad_axis : MapAxis :=
  @from_edges lin_axis_coord [0; 1; 2; 3]%Q "rad" Lin.
(** A rad axis defined by nodes that are not equally spaced, and an energy
    axis of a single edge. *)
Definition ex_node_rad_axis : MapAxis :=
  @from_nodes lin_axis_coord [0; 1; 3]%Q "rad" Lin.
Definition ex_single_edge_axis : MapAxis :=
  @from_edges lin_axis_coord [1]%Q "energy_true" Log.
Definition ex_cube : ndarray :=
  {| shape := [2; 1; 3]%nat; flat := [1; 2; 3; 4; 5; 6]%Q |}.
Definition ex_meta : gmap string Q :=
  <["HI_THRES"%string := 100%Q]> (<["LO_THRES"%string := (1 # 10)%Q]> ∅).
Definition ex_psf3d (m : gmap string Q) : PSF3D.t :=
  PSF3D.mk ex_energy_axis ex_offset_axis ex_rad_axis ex_cube m.
Definition ex_table2d : ndarray :=
  {| shape := [2; 3]%nat; flat := [1; 2; 3; 4; 5; 6]%Q |}.
Definition ex_edpsf : EnergyDependentTablePSF.t :=
  EnergyDependentTablePSF.mk ex_energy_axis ex_rad_axis [1; 1]%Q ex_table2d.

Definition ex_axis (nm : string) (n : nat) : MapAxis :=
  @from_edges lin_axis_coord (map of_nat (seq 0 (S n))) nm Lin.

Definition ex_big_cube : ndarray :=
  {| shape := [32; 6; 144]%nat; flat := repeat 1%Q (32 * 6 * 144) |}.

Definition with_meta (psf : PSF3D.t) (m : gmap string Q) : PSF3D.t :=
  PSF3D.mk (PSF3D.energy_axis_true psf) (PSF3D.offset_axis psf)
    (PSF3D.rad_axis psf) (PSF3D.data psf) m.

Local Open Scope Q_scope.

Definition clamp_above (R b : Q) : Q := if Qle_bool R b then R else b.

(** Strictly increasing sequence of nodes. *)
Fixpoint increasing (l : list Q) : Prop :=
  match l with
  | a :: t => match t with b :: _ => a < b | [] => True end /\ increasing t
  | [] => True
  end.

Definition nonneg (l : list Q) : Prop := Forall (fun x => 0 <= x) l.

(** Density of the disk PSF of radius [w]. *)
Definition disk_amplitude (w : Q) : Q := 1 / (np_pi * w ^ 2).
Definition disk_value (w r : Q) : Q :=
  if Qltb r w then disk_amplitude w else 0.

(** Stand-ins for the interpolator and the Gaussian density, to run
    [from_shape] on the disk shape, which uses neither. *)
Definition ex_interpolator : Interpolator :=
  {| _interpolate := fun _ data _ => data;
     gauss2d_pdf := fun sigma r => 0 |}.

Definition ex_disk_rad : list Q := [0; 13 # 20; 13 # 10; 39 # 20].

(** Stand-ins for the spectral models, to run the definitions: the power law
    of index 2, a constant template and linearly spaced energy edges. *)
Definition ex_spectral_models : SpectralModels :=
  {| power_law := fun e => 1 / e ^ 2;
     template := fun _ _ _ => 1;
     energy_bounds_edges := fun e_min e_max n => linspace e_min e_max (S n) |}.

(** Stand-ins for the dataset interface, to run the maker: a flat background
    of one count per bin, and an optimiser that moves every parameter by one
    and does not converge. *)
Definition ex_dataset_ops : FoVBackgroundMaker.DatasetOps :=
  {| FoVBackgroundMaker.mask := fun ds =>
       default (map (fun _ => true) (FoVBackgroundMaker.counts ds))
               (FoVBackgroundMaker.mask_fit ds);
     FoVBackgroundMaker.npred_background := fun ds =>
       map (fun _ => Finite 1) (FoVBackgroundMaker.counts ds);
     FoVBackgroundMaker.interp_to_geom := fun excl _ => excl;
     FoVBackgroundMaker.create_spectral_model := fun _ =>
       (FoVBackgroundMaker.mk_par (Finite 1) false,
        [FoVBackgroundMaker.mk_par (Finite 0) true;
         FoVBackgroundMaker.mk_par (Finite 1) true]);
     FoVBackgroundMaker.fit_run := fun ds =>
       (map (fun p => np_add (FoVBackgroundMaker.value p) (Finite 1))
            (FoVBackgroundMaker.parameters
               (default [] (FoVBackgroundMaker.models ds))),
        false) |}.

Definition ex_maker (method : string) : FoVBackgroundMaker.t :=
  FoVBackgroundMaker.mk method None "pl-norm".

Definition ex_dataset (counts : list Q) : FoVBackgroundMaker.Dataset :=
  FoVBackgroundMaker.mk_dataset "obs" (map Finite counts) None None.

(** A dataset with a [nan] in its counts. *)
Definition ex_nan_dataset : FoVBackgroundMaker.Dataset :=
  FoVBackgroundMaker.mk_dataset "obs" [NaN; Finite 1] None None.

(** Concrete table PSF: the disk of radius 2 over four rad nodes. *)
Definition ex_table_psf : TablePSF.t :=
  TablePSF.mk (@from_nodes lin_axis_coord ex_disk_rad "rad" Lin)
    (map (disk_value 2) ex_disk_rad).

Definition ex_e_last : Q :=
  Eval vm_compute in
    default 0 (last (edges (TablePSF.rad_axis ex_table_psf))).

Definition ex_integral : Q :=
  Eval vm_compute in
    spec_integrate_rad (TablePSF.rad_axis ex_table_psf)
      (TablePSF.data ex_table_psf) ex_e_last.

(** [a[idx]]: the element of an array at a multi-index. *)
Definition item (a : ndarray) (idx : list nat) : Q :=
  nth (offset (shape a) idx) (flat a) 0%Q.

(** Equality of float values: finite values are compared as rationals. *)
Definition npfloat_eq (x y : npfloat) : Prop :=
  match x, y with
  | Finite a, Finite b => a == b
  | PosInf, PosInf | NegInf, NegInf | NaN, NaN => True
  | _, _ => False
  end.

(** The arrays an interpolator returns have the broadcast shape of the
    coordinate arrays: [PSF3D.evaluate] puts [rad] on the first, [offset]
    on the second and [energy] on the third axis;
    [EnergyDependentTablePSF.evaluate] puts [energy] on the first and
    [rad] on the second axis. *)
Definition broadcasts `{Interpolator} : Prop :=
  forall (axes : list MapAxis) (data : ndarray),
    (forall e o r : list Q,
        shape (_interpolate axes data [e; o; r])
        = [length r; length o; length e] /\
        array_wf (_interpolate axes data [e; o; r])) /\
    (forall e r : list Q,
        shape (_interpolate axes data [e; r]) = [length e; length r] /\
        array_wf (_interpolate axes data [e; r])).

(** Stand-in for the interpolator, to run the conversions: the array of
    zeros of the broadcast shape. *)
Definition ex_broadcast_interpolator : Interpolator :=
  {| _interpolate := fun _ _ pts =>
       let s := match pts with
                | [e; o; r] => [length r; length o; length e]
                | _ => map length pts
                end in
       {| shape := s; flat := repeat 0 (size_of s) |};
     gauss2d_pdf := fun sigma r => 0 |}.

Definition ex_meta_obs : gmap string Q := <["OBS_ID"%string := 23523]> ex_meta.

(** A dataset with one source model and no background model. *)
Definition ex_source_dataset : FoVBackgroundMaker.Dataset :=
  FoVBackgroundMaker.mk_dataset "obs" [Finite 2; Finite 4; Finite 6] None
    (Some [FoVBackgroundMaker.mk_model "source"
             (FoVBackgroundMaker.mk_par (Finite 3) false)
             [FoVBackgroundMaker.mk_par (Finite 2) false]]).

Local Close Scope Q_scope.

(** * Properties *)

(** ** Arrays, validation and the FITS round trip *)

Lemma indices_length (s : list nat) : length (indices s) = size_of s.
Proof.
  induction s as [|n s IH]; [reflexivity|].
  change (indices (n :: s))
    with (flat_map (fun i => map (cons i) (indices s)) (seq 0 n)).
  change (size_of (n :: s)) with (n * size_of s)%nat.
  generalize 0%nat as a. induction n as [|n IHn]; intros a; [reflexivity|].
  cbn [seq flat_map]. rewrite length_app, length_map, IH, IHn. lia.
Qed.

Lemma flat_map_block_lookup {A} (f : nat -> list A) (L n i j a : nat) :
  (forall k, length (f k) = L) -> (i < n)%nat -> (j < L)%nat ->
  flat_map f (seq a n) !! (i * L + j)%nat = f (a + i)%nat !! j.
Proof.
  intros HL. revert a i. induction n as [|n IH]; intros a i Hi Hj; [lia|].
  cbn [seq flat_map]. destruct i as [|i].
  - rewrite lookup_app_l by (rewrite HL; lia).
    rewrite Nat.add_0_r. reflexivity.
  - rewrite lookup_app_r by (rewrite HL; lia).
    rewrite HL. replace (S i * L + j - L)%nat with (i * L + j)%nat by lia.
    rewrite IH by lia. f_equal. f_equal. lia.
Qed.

Lemma offset_lt (s idx : list nat) :
  valid_index s idx -> (offset s idx < size_of s)%nat.
Proof.
  intros Hv. induction Hv as [|i n idx s Hi Hv IH]; [simpl; lia|].
  change (offset (n :: s) (i :: idx)) with (i * size_of s + offset s idx)%nat.
  change (size_of (n :: s)) with (n * size_of s)%nat. nia.
Qed.

Lemma indices_lookup (s idx : list nat) :
  valid_index s idx -> indices s !! offset s idx = Some idx.
Proof.
  intros Hv. induction Hv as [|i n idx s Hi Hv IH]; [reflexivity|].
  change (offset (n :: s) (i :: idx)) with (i * size_of s + offset s idx)%nat.
  change (indices (n :: s))
    with (flat_map (fun i => map (cons i) (indices s)) (seq 0 n)).
  rewrite (flat_map_block_lookup _ (size_of s)).
  - rewrite list_lookup_fmap, IH. reflexivity.
  - intros k. rewrite length_map. apply indices_length.
  - exact Hi.
  - apply offset_lt. exact Hv.
Qed.

Lemma indices_valid (s idx : list nat) :
  In idx (indices s) -> valid_index s idx.
Proof.
  revert idx. induction s as [|n s IH]; intros idx Hin.
  - destruct Hin as [<-|[]]. constructor.
  - change (indices (n :: s))
      with (flat_map (fun i => map (cons i) (indices s)) (seq 0 n)) in Hin.
    apply in_flat_map in Hin as (i & Hi & Hin).
    apply in_map_iff in Hin as (idx' & <- & Hin').
    apply in_seq in Hi. constructor; [lia | apply IH; exact Hin'].
Qed.

Lemma map_add_seq (b c L : nat) :
  map (fun j => (b + j)%nat) (seq c L) = seq (b + c) L.
Proof.
  revert c. induction L as [|L IH]; intros c; [reflexivity|].
  cbn [seq map]. f_equal. rewrite IH. f_equal. lia.
Qed.

Lemma offsets_enumerate (s : list nat) :
  map (offset s) (indices s) = seq 0 (size_of s).
Proof.
  induction s as [|n s IH]; [reflexivity|].
  change (indices (n :: s))
    with (flat_map (fun i => map (cons i) (indices s)) (seq 0 n)).
  change (size_of (n :: s)) with (n * size_of s)%nat.
  assert (Hgen : forall k a,
    map (offset (n :: s))
        (flat_map (fun i => map (cons i) (indices s)) (seq a k))
    = seq (a * size_of s) (k * size_of s)).
  { induction k as [|k IHk]; intros a; [reflexivity|].
    cbn [seq flat_map]. rewrite map_app, IHk, map_map.
    replace (S k * size_of s)%nat with (size_of s + k * size_of s)%nat by lia.
    rewrite seq_app. f_equal; [|f_equal; lia].
    transitivity (map (fun j => (a * size_of s + j)%nat)
                      (map (offset s) (indices s))).
    - rewrite map_map. reflexivity.
    - rewrite IH, map_add_seq. f_equal. lia. }
  exact (Hgen n 0%nat).
Qed.

Lemma valid_index_rev (s idx : list nat) :
  valid_index s idx -> valid_index (rev s) (rev idx).
Proof.
  unfold valid_index. intros Hv.
  induction Hv as [|i n idx s' Hi Hv IH]; [constructor|].
  cbn [rev]. apply Forall2_app; [exact IH|]. constructor; [exact Hi|constructor].
Qed.

Lemma map_nth_seq {A} (l : list A) (d : A) :
  map (fun k => nth k l d) (seq 0 (length l)) = l.
Proof.
  induction l as [|x l IH]; [reflexivity|].
  cbn [length seq map nth]. f_equal.
  rewrite <- seq_shift, map_map. exact IH.
Qed.

Lemma transpose_shape (a : ndarray) : shape (transpose a) = rev (shape a).
Proof. reflexivity. Qed.

Lemma transpose_wf (a : ndarray) : array_wf (transpose a).
Proof.
  unfold array_wf, transpose. cbn [flat shape].
  rewrite length_map. apply indices_length.
Qed.

Lemma transpose_involutive (a : ndarray) :
  array_wf a -> transpose (transpose a) = a.
Proof.
  intros Hwf. destruct a as [s l]. unfold array_wf in Hwf. cbn [flat shape] in Hwf.
  unfold transpose. cbn [shape flat]. rewrite rev_involutive. f_equal.
  transitivity (map (fun idx => nth (offset s idx) l 0%Q) (indices s)).
  - apply map_ext_in. intros idx Hin. apply indices_valid in Hin.
    pose proof (indices_lookup _ _ (valid_index_rev _ _ Hin)) as Hl.
    rewrite (nth_lookup_Some _ _ 0%Q
               (nth (offset s (rev (rev idx))) l 0%Q)).
    + rewrite rev_involutive. reflexivity.
    + rewrite list_lookup_fmap, Hl. reflexivity.
  - rewrite <- (map_map (offset s) (fun k => nth k l 0%Q)).
    rewrite offsets_enumerate, <- Hwf. apply map_nth_seq.
Qed.

Lemma take_first_newaxis (a : ndarray) :
  array_wf a -> take_first (newaxis a) = Ok a.
Proof.
  intros Hwf. destruct a as [s l]. unfold array_wf in Hwf.
  cbn [flat shape] in Hwf. unfold take_first, newaxis. cbn [shape flat].
  rewrite <- Hwf, firstn_all. reflexivity.
Qed.

Lemma removelast_last {A} (e : list A) (x : A) :
  last e = Some x -> removelast e ++ [x] = e.
Proof.
  induction e as [|y e IH]; [discriminate|].
  destruct e as [|z e].
  - intros [= ->]. reflexivity.
  - intros Hl. change (removelast (y :: z :: e)) with (y :: removelast (z :: e)).
    cbn [app]. f_equal. apply IH. exact Hl.
Qed.

Lemma edges_lo_hi_roundtrip (e : list Q) :
  (2 <= length e)%nat ->
  PSF3D.edges_from_lo_hi (PSF3D.edges_lo e) (PSF3D.edges_hi e) = Ok e.
Proof.
  intros Hlen. destruct e as [|x [|y t]]; [simpl in Hlen; lia ..|].
  unfold PSF3D.edges_from_lo_hi, PSF3D.edges_hi, PSF3D.edges_lo, last_item.
  cbn [tl]. destruct (last (y :: t)) as [h|] eqn:El.
  - cbn [mbind result_bind]. f_equal. apply removelast_last. exact El.
  - apply last_None in El. discriminate.
Qed.

Lemma check_shape_Ok (axes : list MapAxis) (s : list nat) :
  check_shape axes s = Ok tt <-> s = map nbin axes.
Proof.
  unfold check_shape. case_bool_decide; split; intros; congruence.
Qed.

Lemma check_shape_Raise (axes : list MapAxis) (s : list nat) :
  s <> map nbin axes -> check_shape axes s = Raise ValueError.
Proof.
  unfold check_shape. case_bool_decide; intros; congruence.
Qed.

Lemma assert_name_Ok (ax : MapAxis) (nm : string) :
  assert_name ax nm = Ok tt <-> name ax = nm.
Proof.
  unfold assert_name. destruct (String.eqb_spec (name ax) nm);
    split; intros; congruence.
Qed.

Lemma assert_name_error (ax : MapAxis) (nm : string) (e : exn) :
  assert_name ax nm = Raise e -> e = ValueError.
Proof. unfold assert_name. destruct (String.eqb _ _); congruence. Qed.

Lemma assert_names_error (axes : list MapAxis) (nms : list string) (e : exn) :
  assert_names axes nms = Raise e -> e = ValueError.
Proof.
  revert nms. induction axes as [|ax axes IH]; intros [|nm nms]; cbn;
    try congruence.
  destruct (assert_name ax nm) as [[]|e'] eqn:E; cbn.
  - apply IH.
  - apply assert_name_error in E. congruence.
Qed.

Lemma assert_names_Ok (axes : list MapAxis) (nms : list string) :
  assert_names axes nms = Ok tt <-> map name axes = nms.
Proof.
  revert nms. induction axes as [|ax axes IH]; intros [|nm nms]; cbn;
    try (split; congruence).
  destruct (assert_name ax nm) as [[]|e'] eqn:E; cbn.
  - apply assert_name_Ok in E. rewrite IH. split; intros; congruence.
  - split; [congruence|]. intros [= Hn _].
    apply assert_name_Ok in Hn. congruence.
Qed.

Lemma bind_Ok {A B} (a : A) (f : A -> result B) : (Ok a ≫= f) = f a.
Proof. reflexivity. Qed.

Lemma bind_inv {A B} (m : result A) (f : A -> result B) (b : B) :
  (m ≫= f) = Ok b -> exists a, m = Ok a /\ f a = Ok b.
Proof. destruct m as [a|e]; [eauto | discriminate]. Qed.

Lemma PSF3D_init_inv e o r d m psf :
  PSF3D.init e o r d m = Ok psf ->
  map name [e; o; r] = ["energy_true"; "offset"; "rad"]%string /\
  shape d = map nbin [e; o; r] /\
  psf = PSF3D.mk e o r d (default ∅ m).
Proof.
  unfold PSF3D.init. intros Hi.
  apply bind_inv in Hi as ([] & Hn & Hi).
  apply bind_inv in Hi as ([] & Hs & Hi).
  apply assert_names_Ok in Hn. apply check_shape_Ok in Hs.
  injection Hi as <-. auto.
Qed.

Lemma PSF3D_init_Ok e o r d m :
  map name [e; o; r] = ["energy_true"; "offset"; "rad"]%string ->
  shape d = map nbin [e; o; r] ->
  PSF3D.init e o r d m = Ok (PSF3D.mk e o r d (default ∅ m)).
Proof.
  intros Hn Hs. unfold PSF3D.init.
  rewrite (proj2 (assert_names_Ok _ _) Hn), bind_Ok.
  rewrite (proj2 (check_shape_Ok _ _) Hs), bind_Ok. reflexivity.
Qed.

Lemma item_transpose (a : ndarray) (idx : list nat) :
  valid_index (shape a) idx -> item (transpose a) (rev idx) = item a idx.
Proof.
  intros Hv. unfold item, transpose. cbn [shape flat].
  pose proof (indices_lookup _ _ (valid_index_rev _ _ Hv)) as Hl.
  rewrite (nth_lookup_Some _ _ 0%Q
             (nth (offset (shape a) (rev (rev idx))) (flat a) 0%Q)).
  - rewrite rev_involutive. reflexivity.
  - rewrite list_lookup_fmap, Hl. reflexivity.
Qed.

Lemma item_take_first (a row : ndarray) (idx : list nat) :
  take_first a = Ok row -> valid_index (shape row) idx ->
  item row idx = item a (0%nat :: idx).
Proof.
  unfold take_first. destruct (shape a) as [|[|n] s] eqn:Es; try discriminate.
  intros [= <-]. cbn [shape]. intros Hv.
  unfold item. cbn [shape flat]. rewrite Es. cbn [offset].
  rewrite Nat.mul_0_l, Nat.add_0_l, nth_firstn.
  pose proof (offset_lt _ _ Hv) as Hlt.
  apply Nat.ltb_lt in Hlt. rewrite Hlt. reflexivity.
Qed.

Lemma valid_index3 (ne no nr i j k : nat) :
  (i < ne)%nat -> (j < no)%nat -> (k < nr)%nat ->
  valid_index [ne; no; nr] [i; j; k].
Proof. intros. repeat constructor; assumption. Qed.

Section RoundTrip.
Context `{AxisCoord}.

Lemma axis_from_table_edges (ax : MapAxis) (nm : string) :
  (2 <= length (edges ax))%nat -> name ax = nm ->
  PSF3D.axis_from_table (PSF3D.edges_lo (edges ax))
    (PSF3D.edges_hi (edges ax)) nm
  = Ok (from_edges (edges ax) nm (gadf_interp nm)).
Proof.
  intros Hlen _. unfold PSF3D.axis_from_table.
  rewrite edges_lo_hi_roundtrip by exact Hlen. reflexivity.
Qed.

(** Reading: the in-memory array is the transpose of row 0 of [RPSF]. *)
Lemma from_table_transposes (tbl : PSF3D.table) (psf' : PSF3D.t)
    (idx : list nat) :
  PSF3D.from_table tbl = Ok psf' ->
  valid_index (shape (PSF3D.data psf')) idx ->
  item (PSF3D.data psf') idx = item (PSF3D.RPSF tbl) (0%nat :: rev idx).
Proof.
  unfold PSF3D.from_table. intros Hr.
  apply bind_inv in Hr as (e' & _ & Hr).
  apply bind_inv in Hr as (o' & _ & Hr).
  apply bind_inv in Hr as (r' & _ & Hr).
  apply bind_inv in Hr as (row & Hrow & Hr).
  apply PSF3D_init_inv in Hr as (_ & _ & ->). cbn [PSF3D.data].
  rewrite transpose_shape. intros Hv.
  apply valid_index_rev in Hv. rewrite rev_involutive in Hv.
  rewrite <- (item_take_first _ _ _ Hrow Hv).
  rewrite <- (item_transpose _ _ Hv), rev_involutive. reflexivity.
Qed.

(** Writing: row 0 of [RPSF] is the transpose of the in-memory array. *)
Lemma to_hdulist_transposes (psf : PSF3D.t) (tbl : PSF3D.table)
    (idx : list nat) :
  PSF3D.to_hdulist psf = Ok tbl ->
  shape (PSF3D.RPSF tbl) = 1%nat :: rev (shape (PSF3D.data psf)) /\
  (valid_index (shape (PSF3D.data psf)) idx ->
   item (PSF3D.RPSF tbl) (0%nat :: rev idx) = item (PSF3D.data psf) idx).
Proof.
  unfold PSF3D.to_hdulist. intros Hw.
  apply bind_inv in Hw as (lo & _ & Hw).
  apply bind_inv in Hw as (hi & _ & Hw).
  injection Hw as <-. cbn [PSF3D.RPSF]. split; [reflexivity|].
  intros Hv. rewrite <- (item_transpose _ _ Hv).
  unfold item, newaxis. cbn [shape flat offset]. reflexivity.
Qed.

Lemma PSF3D_roundtrip e o r d m psf lo hi :
  PSF3D.init e o r d m = Ok psf ->
  array_wf d -> edge_defined e -> edge_defined o -> edge_defined r ->
  PSF3D.meta psf !! "LO_THRES"%string = Some lo ->
  PSF3D.meta psf !! "HI_THRES"%string = Some hi ->
  PSF3D_roundtrips psf.
Proof.
  intros Hi Hwf [Hle Hce] [Hlo' Hco] [Hlr Hcr] Hlo Hhi.
  apply PSF3D_init_inv in Hi as (Hn & Hs & ->).
  injection Hn as Hne Hno Hnr.
  rewrite Hne in Hce. rewrite Hno in Hco. rewrite Hnr in Hcr.
  cbn [PSF3D.meta] in Hlo, Hhi.
  unfold PSF3D_roundtrips, PSF3D.to_hdulist, PSF3D.energy_thresh_lo,
    PSF3D.energy_thresh_hi, getitem.
  cbn [PSF3D.meta PSF3D.data PSF3D.energy_axis_true PSF3D.offset_axis
       PSF3D.rad_axis].
  rewrite Hlo, Hhi, !bind_Ok.
  eexists.
  exists (PSF3D.mk
            (from_edges (edges e) "energy_true" (gadf_interp "energy_true"))
            (from_edges (edges o) "offset" (gadf_interp "offset"))
            (from_edges (edges r) "rad" (gadf_interp "rad"))
            d
            (<["HI_THRES"%string := hi]> (<["LO_THRES"%string := lo]> ∅))).
  split; [reflexivity|]. split.
  - unfold PSF3D.from_table.
    cbn [PSF3D.ENERG_LO PSF3D.ENERG_HI PSF3D.THETA_LO PSF3D.THETA_HI
         PSF3D.RAD_LO PSF3D.RAD_HI PSF3D.RPSF PSF3D.header].
    rewrite (axis_from_table_edges e _ Hle Hne), bind_Ok.
    rewrite (axis_from_table_edges o _ Hlo' Hno), bind_Ok.
    rewrite (axis_from_table_edges r _ Hlr Hnr), bind_Ok.
    rewrite take_first_newaxis, bind_Ok by apply transpose_wf.
    rewrite transpose_involutive by exact Hwf.
    rewrite PSF3D_init_Ok; [reflexivity | reflexivity |].
    rewrite Hs. cbn [map]. unfold nbin, from_edges. cbn [center].
    rewrite Hce, Hco, Hcr. reflexivity.
  - cbn [PSF3D.rad_axis PSF3D.energy_axis_true PSF3D.offset_axis PSF3D.data
         from_edges center].
    rewrite Hce, Hco, Hcr. auto.
Qed.
End RoundTrip.

Lemma EnergyDependentTablePSF_init_inv e r x d psf :
  EnergyDependentTablePSF.init e r x d = Ok psf ->
  map name [e; r] = ["energy_true"; "rad"]%string /\
  shape d = map nbin [e; r] /\
  psf = EnergyDependentTablePSF.mk e r
          (match x with Some v => v | None => repeat 1%Q (nbin e) end) d.
Proof.
  unfold EnergyDependentTablePSF.init. intros Hi.
  apply bind_inv in Hi as ([] & Hn & Hi).
  apply bind_inv in Hi as ([] & Hs & Hi).
  apply assert_names_Ok in Hn. apply check_shape_Ok in Hs.
  injection Hi as <-. auto.
Qed.

Section RoundTrip2.
Context `{AxisCoord}.

Lemma EnergyDependentTablePSF_roundtrip e r x d psf :
  EnergyDependentTablePSF.init e r x d = Ok psf ->
  EnergyDependentTablePSF_roundtrips psf.
Proof.
  intros Hi. apply EnergyDependentTablePSF_init_inv in Hi as (Hn & Hs & ->).
  unfold EnergyDependentTablePSF_roundtrips,
    EnergyDependentTablePSF.from_hdulist, EnergyDependentTablePSF.to_hdulist.
  cbn [EnergyDependentTablePSF.THETA_Theta EnergyDependentTablePSF.PSF_Energy
       EnergyDependentTablePSF.PSF_Exposure EnergyDependentTablePSF.PSF_PSF
       EnergyDependentTablePSF.rad_axis
       EnergyDependentTablePSF.energy_axis_true
       EnergyDependentTablePSF.exposure EnergyDependentTablePSF.data].
  unfold EnergyDependentTablePSF.init.
  rewrite (proj2 (assert_names_Ok _ _)) by reflexivity. rewrite bind_Ok.
  rewrite (proj2 (check_shape_Ok _ _)) by exact Hs. rewrite bind_Ok.
  eexists. split; [reflexivity|]. cbn. auto.
Qed.

End RoundTrip2.

Example transpose_2x3 :
  transpose ex_table2d
  = {| shape := [3; 2]%nat; flat := [1; 4; 2; 5; 3; 6]%Q |}.
Proof. reflexivity. Qed.

Example transpose_cube :
  transpose ex_cube
  = {| shape := [3; 1; 2]%nat; flat := [1; 4; 2; 5; 3; 6]%Q |}.
Proof. reflexivity. Qed.

Lemma ex_edge_defined_axes :
  @edge_defined lin_axis_coord ex_energy_axis /\
  @edge_defined lin_axis_coord ex_offset_axis /\
  @edge_defined lin_axis_coord ex_rad_axis.
Proof.
  repeat split; try reflexivity; cbn; lia.
Defined.



(** C3: [PSF3D.__init__] validates the shape of the data array against the
    bin numbers of the axes, in the order (energy_true, offset, rad): a data
    array of any other shape is rejected with a [ValueError]; a constructed
    [PSF3D] has a data array of exactly that shape; with the right axis names
    and that shape the construction succeeds; and the transposed array of a
    (32, 6, 144) cube is rejected. *)
Theorem PSF3D_init_shape_mismatch (e o r : MapAxis) (d : ndarray)
    (m : option (gmap string Q)) :
  (shape d <> [nbin e; nbin o; nbin r] ->
   PSF3D.init e o r d m = Raise ValueError) /\
  (forall psf, PSF3D.init e o r d m = Ok psf ->
               shape d = [nbin e; nbin o; nbin r]) /\
  (map name [e; o; r] = ["energy_true"; "offset"; "rad"]%string ->
   shape d = [nbin e; nbin o; nbin r] ->
   exists psf, PSF3D.init e o r d m = Ok psf /\ PSF3D.data psf = d) /\
  (nbin e = 32%nat -> nbin o = 6%nat -> nbin r = 144%nat ->
   shape d = [32; 6; 144]%nat ->
   PSF3D.init e o r (transpose d) m = Raise ValueError).
Proof.
  assert (Hbad : forall d', shape d' <> [nbin e; nbin o; nbin r] ->
                            PSF3D.init e o r d' m = Raise ValueError).
  { intros d' Hne. unfold PSF3D.init.
    destruct (assert_names [e; o; r] ["energy_true"; "offset"; "rad"]%string)
      as [[]|ex] eqn:En.
    - rewrite bind_Ok, check_shape_Raise by exact Hne. reflexivity.
    - apply assert_names_error in En. subst ex. reflexivity. }
  split; [apply Hbad|]. split; [|split].
  - intros psf Hi. apply PSF3D_init_inv in Hi as (_ & Hs & _). exact Hs.
  - intros Hn Hs. eexists. split; [apply PSF3D_init_Ok; assumption|].
    reflexivity.
  - intros He Ho Hr Hs. apply Hbad. rewrite transpose_shape, Hs, He, Ho, Hr.
    cbn. discriminate.
Qed.

Lemma PSF3D_init_shape_mismatch_witness :
  PSF3D.init (ex_axis "energy_true" 32) (ex_axis "offset" 6)
    (ex_axis "rad" 144) (transpose ex_big_cube) None = Raise ValueError.
Proof.
  apply (proj2 (proj2 (proj2
    (PSF3D_init_shape_mismatch (ex_axis "energy_true" 32)
       (ex_axis "offset" 6) (ex_axis "rad" 144) ex_big_cube None))));
    reflexivity.
Defined.

(** C10: [PSF3D.to_hdulist] reads [energy_thresh_lo] and [energy_thresh_hi]
    to fill the header, so it raises [KeyError] when [meta] lacks [LO_THRES]
    or [HI_THRES]; a [PSF3D] constructed without [meta] is such an object;
    [evaluate] does not read [meta]. *)
Theorem to_hdulist_missing_threshold (psf : PSF3D.t) :
  (PSF3D.meta psf !! "LO_THRES"%string = None ->
   PSF3D.to_hdulist psf = Raise (KeyError "LO_THRES")) /\
  (is_Some (PSF3D.meta psf !! "LO_THRES"%string) ->
   PSF3D.meta psf !! "HI_THRES"%string = None ->
   PSF3D.to_hdulist psf = Raise (KeyError "HI_THRES")) /\
  (forall e o r d, PSF3D.init e o r d None = Ok psf ->
     PSF3D.to_hdulist psf = Raise (KeyError "LO_THRES")) /\
  (forall (I : Interpolator) m energy offset rad,
     PSF3D.evaluate (with_meta psf m) energy offset rad
     = PSF3D.evaluate psf energy offset rad).
Proof.
  assert (Hlo : PSF3D.meta psf !! "LO_THRES"%string = None ->
                PSF3D.to_hdulist psf = Raise (KeyError "LO_THRES")).
  { intros Hn. unfold PSF3D.to_hdulist, PSF3D.energy_thresh_lo, getitem.
    rewrite Hn. reflexivity. }
  split; [exact Hlo|]. split; [|split].
  - intros [lo Hl] Hn.
    unfold PSF3D.to_hdulist, PSF3D.energy_thresh_lo, PSF3D.energy_thresh_hi,
      getitem.
    rewrite Hl, Hn. reflexivity.
  - intros e o r d Hi. apply Hlo.
    apply PSF3D_init_inv in Hi as (_ & _ & ->). apply lookup_empty.
  - intros I m energy offset rad. reflexivity.
Qed.

Lemma to_hdulist_missing_threshold_witness :
  PSF3D.to_hdulist (ex_psf3d ∅) = Raise (KeyError "LO_THRES") /\
  PSF3D.to_hdulist (ex_psf3d (<["LO_THRES"%string := 1%Q]> ∅))
    = Raise (KeyError "HI_THRES").
Proof.
  split.
  - apply (proj1 (to_hdulist_missing_threshold (ex_psf3d ∅))). reflexivity.
  - apply (proj1 (proj2 (to_hdulist_missing_threshold
             (ex_psf3d (<["LO_THRES"%string := 1%Q]> ∅)))));
      [eexists|]; reflexivity.
Defined.

(** ** Sampling grid and nearest grid point *)

Lemma Qltb_lt (x y : Q) : Qltb x y = true <-> (x < y)%Q.
Proof.
  unfold Qltb. rewrite negb_true_iff. split.
  - intros Hb. apply Qnot_le_lt. intros Hle.
    apply Qle_bool_iff in Hle. congruence.
  - intros Hlt. destruct (Qle_bool y x) eqn:E; [|reflexivity].
    apply Qle_bool_iff in E. exfalso. exact (Qlt_not_le _ _ Hlt E).
Qed.

Lemma Qltb_ge (x y : Q) : Qltb x y = false <-> (y <= x)%Q.
Proof.
  unfold Qltb. rewrite negb_false_iff. apply Qle_bool_iff.
Qed.

Lemma argmin_from_first_min (t pre : list Q) (bi : nat) (b : Q) :
  pre !! bi = Some b ->
  (forall j v, pre !! j = Some v -> (b <= v)%Q) ->
  (forall j v, (j < bi)%nat -> pre !! j = Some v -> (b < v)%Q) ->
  first_min (pre ++ t) (argmin_from bi b (length pre) t).
Proof.
  revert pre bi b. induction t as [|x t IH]; intros pre bi b Hb Hle Hlt.
  - simpl. rewrite app_nil_r. exists b. auto.
  - simpl. replace (pre ++ x :: t) with ((pre ++ [x]) ++ t)
      by (rewrite <- app_assoc; reflexivity).
    replace (S (length pre)) with (length (pre ++ [x]))
      by (rewrite length_app; simpl; lia).
    destruct (Qltb x b) eqn:E.
    + apply Qltb_lt in E. apply IH.
      * rewrite lookup_app_r by lia. rewrite Nat.sub_diag. reflexivity.
      * intros j v Hj. destruct (decide (j < length pre)%nat) as [Hlt'|Hge].
        -- rewrite lookup_app_l in Hj by lia.
           apply Qlt_le_weak. eapply Qlt_le_trans; [exact E|]. eauto.
        -- rewrite lookup_app_r in Hj by lia.
           destruct (j - length pre)%nat; simpl in Hj; [|discriminate].
           injection Hj as <-. apply Qle_refl.
      * intros j v Hjl Hj. rewrite lookup_app_l in Hj by lia.
        eapply Qlt_le_trans; [exact E|]. eauto.
    + apply Qltb_ge in E. apply IH.
      * rewrite lookup_app_l; [exact Hb|]. eapply lookup_lt_Some; eauto.
      * intros j v Hj. destruct (decide (j < length pre)%nat) as [Hlt'|Hge].
        -- rewrite lookup_app_l in Hj by lia. eauto.
        -- rewrite lookup_app_r in Hj by lia.
           destruct (j - length pre)%nat; simpl in Hj; [|discriminate].
           injection Hj as <-. exact E.
      * intros j v Hjl Hj.
        assert (bi < length pre)%nat by (eapply lookup_lt_Some; eauto).
        rewrite lookup_app_l in Hj by lia. eauto.
Qed.

Lemma argmin_first_min (l : list Q) :
  l <> [] -> exists k, argmin l = Ok k /\ first_min l k.
Proof.
  destruct l as [|x t]; [congruence|]. intros _.
  exists (argmin_from 0 x 1 t). split; [reflexivity|].
  apply (argmin_from_first_min t [x] 0%nat x).
  - reflexivity.
  - intros [|j] v Hj; simpl in Hj; [|discriminate].
    injection Hj as <-. apply Qle_refl.
  - intros j v Hj. lia.
Qed.

Lemma mapM_Ok {A B} (f : A -> result B) (l : list A) (g : A -> B) :
  (forall x, In x l -> f x = Ok (g x)) -> mapM f l = Ok (map g l).
Proof.
  induction l as [|x l IH]; intros Hf; [reflexivity|].
  simpl. rewrite (Hf x) by (left; reflexivity). simpl.
  rewrite IH by (intros y Hy; apply Hf; right; exact Hy). reflexivity.
Qed.

Lemma linspace_length (a b : Q) (n : nat) : length (linspace a b n) = n.
Proof.
  destruct n as [|[|n]]; [reflexivity | reflexivity |].
  unfold linspace. rewrite length_map, length_seq. reflexivity.
Qed.

Lemma linspace_lookup (a b : Q) (n i : nat) (v : Q) :
  linspace a b n !! i = Some v ->
  (v == a + of_nat i * ((b - a) / of_nat (n - 1)))%Q.
Proof.
  destruct n as [|[|n]].
  - discriminate.
  - destruct i; simpl; [|discriminate]. intros [= <-].
    unfold of_nat. simpl. ring.
  - unfold linspace. rewrite list_lookup_fmap.
    intros Hi. destruct (seq 0 (S (S n)) !! i) as [k|] eqn:E; [|discriminate].
    apply lookup_seq in E as [-> _]. simpl in Hi. injection Hi as <-.
    replace (S (S n) - 1)%nat with (S n) by lia. simpl. reflexivity.
Qed.

Lemma of_nat_pos (n : nat) : (0 < n)%nat -> (0 < of_nat n)%Q.
Proof.
  intros Hn. unfold of_nat. change 0%Q with (inject_Z 0).
  rewrite <- Zlt_Qlt. lia.
Qed.

Lemma linspace_first (a b : Q) (n : nat) :
  (0 < n)%nat -> exists v, linspace a b n !! 0%nat = Some v /\ (v == a)%Q.
Proof.
  intros Hn.
  destruct (linspace a b n !! 0%nat) as [v|] eqn:E.
  - exists v. split; [reflexivity|]. apply linspace_lookup in E.
    rewrite E. unfold of_nat at 1. simpl. ring.
  - apply lookup_ge_None in E. rewrite linspace_length in E. lia.
Qed.

Lemma linspace_last (a b : Q) (n : nat) :
  (1 < n)%nat ->
  exists v, linspace a b n !! (n - 1)%nat = Some v /\ (v == b)%Q.
Proof.
  intros Hn.
  destruct (linspace a b n !! (n - 1)%nat) as [v|] eqn:E.
  - exists v. split; [reflexivity|]. apply linspace_lookup in E.
    rewrite E. assert (0 < of_nat (n - 1))%Q by (apply of_nat_pos; lia).
    field. intros Hz. rewrite Hz in H. exact (Qlt_irrefl _ H).
  - apply lookup_ge_None in E. rewrite linspace_length in E. lia.
Qed.

Lemma mapM_cons {A B} (f : A -> result B) (x : A) (l : list A) :
  mapM f (x :: l) = (f x ≫= fun y => mapM f l ≫= fun k => Ok (y :: k)).
Proof. reflexivity. Qed.

Lemma mapM_Forall2 {A B} (f : A -> result B) (P : A -> B -> Prop)
    (l : list A) :
  (forall x, In x l -> exists y, f x = Ok y /\ P x y) ->
  exists ys, mapM f l = Ok ys /\ Forall2 P l ys.
Proof.
  induction l as [|x l IH]; intros Hf.
  - exists []. split; [reflexivity | constructor].
  - destruct (Hf x) as (y & Hy & HP); [left; reflexivity|].
    destruct IH as (ys & Hys & HF); [intros z Hz; apply Hf; right; exact Hz|].
    exists (y :: ys). split; [|constructor; assumption].
    rewrite mapM_cons, Hy, bind_Ok, Hys, bind_Ok. reflexivity.
Qed.

Lemma Forall2_compose {A B C} (P : A -> B -> Prop) (R : B -> C -> Prop)
    (l : list A) (m : list B) (k : list C) :
  Forall2 P l m -> Forall2 R m k ->
  Forall2 (fun a c => exists b, P a b /\ R b c) l k.
Proof.
  intros HP. revert k. induction HP; intros k HR; inversion HR; subst.
  - constructor.
  - constructor; eauto.
Qed.

Section C1.
Context `{RadIntegrator}.
Local Open Scope Q_scope.

Lemma containment_radius_first_min
    (psf : TablePSF.t) (fraction : list Q) (c_last : Q) :
  last (center (TablePSF.rad_axis psf)) = Some c_last ->
  let grid := linspace 0 c_last (10 * nbin (TablePSF.rad_axis psf)) in
  let sampled := TablePSF.containment psf grid in
  exists radii,
    TablePSF.containment_radius psf fraction = Ok radii /\
    Forall2 (fun f r => exists i,
               first_min (map (fun c => Qabs (c - f)) sampled) i /\
               grid !! i = Some r) fraction radii.
Proof.
  intros El grid sampled.
  assert (Hn : (0 < nbin (TablePSF.rad_axis psf))%nat).
  { unfold nbin. destruct (center (TablePSF.rad_axis psf));
      [discriminate | cbn; lia]. }
  assert (Hlen : length grid = (10 * nbin (TablePSF.rad_axis psf))%nat)
    by apply linspace_length.
  assert (Hslen : length sampled = length grid).
  { unfold sampled, TablePSF.containment. apply length_map. }
  set (P1 := fun (f : Q) (i : nat) =>
    first_min (map (fun c => Qabs (c - f)) sampled) i).
  destruct (mapM_Forall2
    (fun f => argmin (map (fun c => Qabs (c - f)) sampled)) P1 fraction)
    as (idx & Hidx & HF1).
  { intros f _. apply argmin_first_min. intros Hnil.
    apply (f_equal length) in Hnil.
    rewrite length_map, Hslen, Hlen in Hnil. cbn [length] in Hnil. lia. }
  destruct (mapM_Forall2
    (fun i : nat => match grid !! i with
                    | Some r => Ok r
                    | None => Raise IndexError
                    end)
    (fun i r => grid !! i = Some r) idx) as (radii & Hradii & HF2).
  { intros i Hi. apply list_elem_of_In in Hi.
    destruct (proj1 (list_elem_of_lookup idx i) Hi) as (k & Hk).
    destruct (Forall2_lookup_r _ _ _ _ _ HF1 Hk) as (f & _ & Hf).
    destruct Hf as (vi & Hvi & _). apply lookup_lt_Some in Hvi.
    rewrite length_map, Hslen in Hvi.
    destruct (lookup_lt_is_Some_2 grid i Hvi) as [r Hr].
    exists r. rewrite Hr. auto. }
  exists radii. split.
  { unfold TablePSF.containment_radius, last_item. rewrite El, bind_Ok.
    fold grid. fold sampled. rewrite Hidx, bind_Ok. exact Hradii. }
  exact (Forall2_compose _ _ _ _ _ HF1 HF2).
Qed.

(** C1: [TablePSF.containment_radius] samples the containment on the grid
    of [10 * nbin] radii [linspace(0, center[-1], 10 * nbin)] and returns,
    for each requested fraction, the grid radius whose sampled containment
    is nearest to the fraction in absolute difference, the first such
    radius in case of ties. *)
Theorem containment_radius_nearest_grid_point
    (psf : TablePSF.t) (fraction : list Q) :
  (0 < nbin (TablePSF.rad_axis psf))%nat ->
  exists c_last radii,
    last (center (TablePSF.rad_axis psf)) = Some c_last /\
    TablePSF.containment_radius psf fraction = Ok radii /\
    let n := (10 * nbin (TablePSF.rad_axis psf))%nat in
    let grid := linspace 0 c_last n in
    let sampled := TablePSF.containment psf grid in
    length grid = n /\
    (forall i r, grid !! i = Some r ->
                 r == of_nat i * (c_last / of_nat (n - 1))) /\
    (exists r0 r1, grid !! 0%nat = Some r0 /\ r0 == 0 /\
                   grid !! (n - 1)%nat = Some r1 /\ r1 == c_last) /\
    Forall2 (fun f r =>
      exists i ci,
        grid !! i = Some r /\ sampled !! i = Some ci /\
        (forall j cj, sampled !! j = Some cj ->
                      Qabs (ci - f) <= Qabs (cj - f)) /\
        (forall j cj, (j < i)%nat -> sampled !! j = Some cj ->
                      Qabs (ci - f) < Qabs (cj - f)))
      fraction radii.
Proof.
  intros Hn.
  destruct (last (center (TablePSF.rad_axis psf))) as [c_last|] eqn:El.
  2:{ apply last_None in El. unfold nbin in Hn. rewrite El in Hn.
      inversion Hn. }
  destruct (containment_radius_first_min psf fraction c_last El)
    as (radii & Hrun & HF).
  exists c_last, radii. split; [reflexivity|]. split; [exact Hrun|].
  cbv zeta.
  set (n := (10 * nbin (TablePSF.rad_axis psf))%nat) in *.
  set (grid := linspace 0 c_last n) in *.
  set (sampled := TablePSF.containment psf grid) in *.
  split; [apply linspace_length|]. split.
  { intros i r Hi. apply linspace_lookup in Hi. rewrite Hi.
    unfold Qdiv. ring. }
  split.
  { destruct (linspace_first 0 c_last n) as (r0 & Hr0 & E0);
      [unfold n; lia|].
    destruct (linspace_last 0 c_last n) as (r1 & Hr1 & E1);
      [unfold n; lia|].
    exists r0, r1. auto. }
  eapply Forall2_impl; [exact HF|].
  intros f r (i & Hmin & Hr).
  destruct Hmin as (vi & Hvi & Hle & Hlt).
  rewrite list_lookup_fmap in Hvi.
  destruct (sampled !! i) as [ci|] eqn:Eci; [|discriminate].
  assert (Evi : Some (Qabs (ci - f)) = Some vi) by exact Hvi.
  assert (Evi' : vi = Qabs (ci - f)) by congruence.
  clear Evi Hvi. subst vi.
  exists i, ci. split; [exact Hr|]. split; [exact Eci|]. split.
  - intros j cj Hj. apply (Hle j). rewrite list_lookup_fmap, Hj. reflexivity.
  - intros j cj Hji Hj. apply (Hlt j); [exact Hji|].
    rewrite list_lookup_fmap, Hj. reflexivity.
Qed.
End C1.

Local Open Scope Q_scope.

(** ** The radial integral *)

Lemma np_pi_pos : 0 < np_pi.
Proof. reflexivity. Qed.

Lemma Qle_bool_false (x y : Q) : Qle_bool x y = false <-> y < x.
Proof.
  split.
  - intros Hb. apply Qnot_le_lt. intros Hle.
    apply Qle_bool_iff in Hle. congruence.
  - intros Hlt. destruct (Qle_bool x y) eqn:E; [|reflexivity].
    apply Qle_bool_iff in E. exfalso. exact (Qlt_not_le _ _ Hlt E).
Qed.

Lemma interp_lin_convex (a fa b fb r : Q) :
  a < b ->
  interp_lin a fa b fb r == (fa * (b - r) + fb * (r - a)) / (b - a).
Proof. intros Hab. unfold interp_lin. field. lra. Qed.

Lemma interp_lin_nonneg (a fa b fb r : Q) :
  a < b -> a <= r -> r <= b -> 0 <= fa -> 0 <= fb ->
  0 <= interp_lin a fa b fb r.
Proof.
  intros Hab Har Hrb Hfa Hfb. rewrite interp_lin_convex by exact Hab.
  apply Qle_shift_div_l; [lra|]. nra.
Qed.

Lemma rad_integrand_nonneg (a fa b fb r : Q) :
  0 <= a -> a < b -> a <= r -> r <= b -> 0 <= fa -> 0 <= fb ->
  0 <= rad_integrand a fa b fb r.
Proof.
  intros Ha Hab Har Hrb Hfa Hfb. unfold rad_integrand.
  pose proof (interp_lin_nonneg a fa b fb r Hab Har Hrb Hfa Hfb).
  pose proof np_pi_pos.
  repeat apply Qmult_le_0_compat; lra.
Qed.

Lemma simpson_nonneg (a fa b fb x1 x2 : Q) :
  0 <= a -> a < b -> a <= x1 -> x1 <= x2 -> x2 <= b -> 0 <= fa -> 0 <= fb ->
  0 <= simpson (rad_integrand a fa b fb) x1 x2.
Proof.
  intros Ha Hab H1 H12 H2 Hfa Hfb. unfold simpson.
  pose proof (rad_integrand_nonneg a fa b fb x1 Ha Hab) as G1.
  pose proof (rad_integrand_nonneg a fa b fb x2 Ha Hab) as G2.
  pose proof (rad_integrand_nonneg a fa b fb ((x1 + x2) / 2) Ha Hab) as Gm.
  assert (a <= (x1 + x2) / 2) by (apply Qle_shift_div_l; lra).
  assert ((x1 + x2) / 2 <= b) by (apply Qle_shift_div_r; lra).
  specialize (G1 ltac:(lra) ltac:(lra) Hfa Hfb).
  specialize (G2 ltac:(lra) ltac:(lra) Hfa Hfb).
  specialize (Gm ltac:(lra) ltac:(lra) Hfa Hfb).
  assert (0 <= (x2 - x1) / 6) by (apply Qle_shift_div_l; lra).
  nra.
Qed.

Lemma simpson_additive (a fa b fb x1 x2 x3 : Q) :
  a < b ->
  simpson (rad_integrand a fa b fb) x1 x3
  == simpson (rad_integrand a fa b fb) x1 x2
     + simpson (rad_integrand a fa b fb) x2 x3.
Proof.
  intros Hab. unfold simpson, rad_integrand, interp_lin. field. lra.
Qed.

Lemma simpson_empty (g : Q -> Q) (x : Q) : simpson g x x == 0.
Proof. unfold simpson. field. Qed.

Lemma clamp_above_spec (R b : Q) :
  clamp_above R b <= b /\ clamp_above R b <= R /\
  (R <= b -> clamp_above R b = R) /\ (b < R -> clamp_above R b = b).
Proof.
  unfold clamp_above. destruct (Qle_bool R b) eqn:E.
  - apply Qle_bool_iff in E.
    repeat split; intros; try lra; try reflexivity; exfalso; lra.
  - apply Qle_bool_false in E.
    repeat split; intros; try lra; try reflexivity; exfalso; lra.
Qed.

Lemma clamp_above_mono (R1 R2 b : Q) :
  R1 <= R2 -> clamp_above R1 b <= clamp_above R2 b.
Proof.
  intros H12. unfold clamp_above.
  destruct (Qle_bool R1 b) eqn:E1, (Qle_bool R2 b) eqn:E2;
    try apply Qle_bool_iff in E1; try apply Qle_bool_iff in E2;
    try apply Qle_bool_false in E1; try apply Qle_bool_false in E2; lra.
Qed.

Lemma segment_integral_eq (a fa b fb R : Q) :
  segment_integral a fa b fb R
  = if Qle_bool R a then 0
    else simpson (rad_integrand a fa b fb) a (clamp_above R b).
Proof. reflexivity. Qed.

Lemma segment_integral_mono (a fa b fb R1 R2 : Q) :
  0 <= a -> a < b -> 0 <= fa -> 0 <= fb -> R1 <= R2 ->
  segment_integral a fa b fb R1 <= segment_integral a fa b fb R2.
Proof.
  intros Ha Hab Hfa Hfb H12. rewrite !segment_integral_eq.
  destruct (clamp_above_spec R1 b) as (C1b & C1R & C1e & _).
  destruct (clamp_above_spec R2 b) as (C2b & C2R & C2e & C2e').
  pose proof (clamp_above_mono R1 R2 b H12) as Hc.
  destruct (Qle_bool R2 a) eqn:E2.
  - apply Qle_bool_iff in E2.
    assert (E1 : Qle_bool R1 a = true) by (apply Qle_bool_iff; lra).
    rewrite E1. lra.
  - apply Qle_bool_false in E2.
    assert (Hac2 : a <= clamp_above R2 b).
    { destruct (Qlt_le_dec b R2) as [Hlt|Hle].
      - rewrite (C2e' Hlt). lra.
      - rewrite (C2e Hle). lra. }
    destruct (Qle_bool R1 a) eqn:E1.
    + apply simpson_nonneg; try assumption; lra.
    + apply Qle_bool_false in E1.
      assert (Hac1 : a <= clamp_above R1 b).
      { destruct (Qlt_le_dec b R1) as [Hlt|Hle].
        - destruct (clamp_above_spec R1 b) as (_ & _ & _ & C1e').
          rewrite (C1e' Hlt). lra.
        - rewrite (C1e Hle). lra. }
      rewrite (simpson_additive a fa b fb a (clamp_above R1 b)
                 (clamp_above R2 b) Hab).
      pose proof (simpson_nonneg a fa b fb (clamp_above R1 b)
                    (clamp_above R2 b) Ha Hab Hac1 Hc C2b Hfa Hfb).
      lra.
Qed.

Lemma integrate_nodes_cons2 (a fa b fb : Q) (cs ds : list Q) (R : Q) :
  integrate_nodes (combine (a :: b :: cs) (fa :: fb :: ds)) R
  = segment_integral a fa b fb R
    + integrate_nodes (combine (b :: cs) (fb :: ds)) R.
Proof. reflexivity. Qed.

Lemma integrate_nodes_short (cs ds : list Q) (R : Q) :
  (length cs <= 1)%nat \/ (length ds <= 1)%nat ->
  integrate_nodes (combine cs ds) R = 0.
Proof.
  destruct cs as [|a [|b cs]], ds as [|fa [|fb ds]]; cbn [length];
    intros [Hn|Hn]; try lia; reflexivity.
Qed.

Lemma nodes_cases (cs ds : list Q) :
  ((length cs <= 1)%nat \/ (length ds <= 1)%nat) \/
  exists a b cs' fa fb ds', cs = a :: b :: cs' /\ ds = fa :: fb :: ds'.
Proof.
  destruct cs as [|a [|b cs]], ds as [|fa [|fb ds]]; cbn [length];
    try (left; lia).
  right. repeat eexists.
Qed.

Lemma integrate_nodes_mono (cs ds : list Q) (R1 R2 : Q) :
  increasing cs -> nonneg cs -> nonneg ds -> R1 <= R2 ->
  integrate_nodes (combine cs ds) R1 <= integrate_nodes (combine cs ds) R2.
Proof.
  revert ds. induction cs as [|a cs IH]; intros ds Hinc Hc Hd H12.
  - cbn. lra.
  - destruct (nodes_cases (a :: cs) ds)
      as [Hs | (a' & b & cs' & fa & fb & ds' & Ec & Ed)].
    + rewrite !integrate_nodes_short by exact Hs. lra.
    + injection Ec as <- ->. subst ds.
      rewrite !integrate_nodes_cons2.
      destruct Hinc as [Hab Hinc]. inversion Hc as [|? ? Ha Hc']; subst.
      inversion Hd as [|? ? Hfa Hd']; subst.
      pose proof Hd' as Hd''. inversion Hd'' as [|? ? Hfb _]; subst.
      pose proof (segment_integral_mono a fa b fb R1 R2 Ha Hab Hfa Hfb H12).
      pose proof (IH (fb :: ds') Hinc Hc' Hd' H12).
      lra.
Qed.

(** C4: for a [TablePSF] with non-negative data over non-negative, strictly
    increasing rad nodes, the containment computed by the radial integral is
    non-decreasing in [rad_max]. *)
Theorem containment_monotone (psf : TablePSF.t) (r1 r2 : Q) :
  increasing (center (TablePSF.rad_axis psf)) ->
  nonneg (center (TablePSF.rad_axis psf)) ->
  nonneg (TablePSF.data psf) ->
  r1 <= r2 ->
  exists c1 c2,
    @TablePSF.containment spec_integrate_rad psf [r1; r2] = [c1; c2] /\
    c1 <= c2.
Proof.
  intros Hinc Hc Hd H12. eexists. eexists. split; [reflexivity|].
  apply integrate_nodes_mono; assumption.
Qed.

(** ** The disk PSF *)

Lemma from_shape_disk `{AxisCoord} `{Interpolator} (w : Q) (rad : list Q) :
  TablePSF.from_shape "disk" w rad
  = Ok (TablePSF.mk (from_nodes rad "rad" Lin) (map (disk_value w) rad)).
Proof.
  unfold TablePSF.from_shape. cbn [String.eqb Ascii.eqb Bool.eqb].
  rewrite bind_Ok. unfold TablePSF.init.
  rewrite (proj2 (assert_name_Ok _ _)) by reflexivity. rewrite bind_Ok.
  rewrite (proj2 (check_shape_Ok _ _)), bind_Ok.
  - reflexivity.
  - cbn. unfold nbin. cbn. rewrite length_map. reflexivity.
Qed.

Lemma disk_amplitude_pos (w : Q) : 0 < w -> 0 < disk_amplitude w.
Proof.
  intros Hw. unfold disk_amplitude. pose proof np_pi_pos.
  apply Qlt_shift_div_l; [|lra].
  apply Qmult_lt_0_compat; [assumption|]. nra.
Qed.

Lemma disk_value_nonneg (w : Q) (rad : list Q) :
  0 < w -> nonneg (map (disk_value w) rad).
Proof.
  intros Hw. apply List.Forall_forall. intros x Hx.
  apply in_map_iff in Hx as (r & <- & _). unfold disk_value.
  pose proof (disk_amplitude_pos w Hw). destruct (Qltb r w); lra.
Qed.

Lemma simpson_constant (a b A x1 x2 : Q) :
  a < b ->
  simpson (rad_integrand a A b A) x1 x2 == np_pi * A * (x2 ^ 2 - x1 ^ 2).
Proof.
  intros Hab. unfold simpson, rad_integrand, interp_lin. field. lra.
Qed.

Lemma integrate_nodes_below (cs ds : list Q) (R : Q) :
  increasing cs -> (forall a, head cs = Some a -> R <= a) ->
  integrate_nodes (combine cs ds) R == 0.
Proof.
  revert ds. induction cs as [|a cs IH]; intros ds Hinc Hhd; [reflexivity|].
  destruct (nodes_cases (a :: cs) ds)
    as [Hs | (a' & b & cs' & fa & fb & ds' & Ec & Ed)].
  - rewrite integrate_nodes_short by exact Hs. reflexivity.
  - injection Ec as <- ->. subst ds. rewrite integrate_nodes_cons2.
    destruct Hinc as [Hab Hinc]. specialize (Hhd a eq_refl).
    rewrite segment_integral_eq.
    assert (E : Qle_bool R a = true) by (apply Qle_bool_iff; exact Hhd).
    rewrite E, IH; [reflexivity | exact Hinc |].
    intros b' [= <-]. lra.
Qed.

(** Below a node [ck < w] the density is the constant amplitude, and the
    integral from the first node [a] to [R] is [pi A (R^2 - a^2)]. *)
Lemma integrate_disk_inside (w : Q) (cs : list Q) (k : nat) (ck a R : Q) :
  increasing cs -> head cs = Some a -> cs !! k = Some ck -> ck < w ->
  R <= ck ->
  integrate_nodes (combine cs (map (disk_value w) cs)) R
  == if Qle_bool R a then 0
     else np_pi * disk_amplitude w * (R ^ 2 - a ^ 2).
Proof.
  revert k a. induction cs as [|a0 cs IH]; intros k a Hinc Hhd Hk Hck HR;
    [discriminate|].
  assert (Ea0 : a0 = a) by (cbn in Hhd; congruence). subst a0. clear Hhd.
  destruct k as [|k].
  - assert (Eck : ck = a) by (cbn in Hk; congruence). subst ck. clear Hk.
    assert (E : Qle_bool R a = true) by (apply Qle_bool_iff; exact HR).
    rewrite E. apply integrate_nodes_below; [exact Hinc|].
    intros a' [= <-]. exact HR.
  - destruct cs as [|b cs]; [discriminate|].
    cbn [map]. rewrite integrate_nodes_cons2.
    destruct Hinc as [Hab Hinc].
    change ((a :: b :: cs) !! S k) with ((b :: cs) !! k) in Hk.
    assert (Hbk : b <= ck).
    { clear - Hinc Hk. revert b ck Hinc Hk.
      induction k as [|k IHk] in cs |- *; intros b ck Hinc Hk.
      - assert (Eck : ck = b) by (cbn in Hk; congruence). subst ck. lra.
      - destruct cs as [|c cs]; [discriminate|].
        destruct Hinc as [Hbc Hinc].
        change ((b :: c :: cs) !! S k) with ((c :: cs) !! k) in Hk.
        pose proof (IHk cs c ck Hinc Hk). lra. }
    rewrite (IH k b Hinc eq_refl Hk Hck HR).
    assert (Ea : disk_value w a = disk_amplitude w).
    { unfold disk_value.
      rewrite (proj2 (Qltb_lt a w)) by lra. reflexivity. }
    assert (Eb : disk_value w b = disk_amplitude w).
    { unfold disk_value.
      rewrite (proj2 (Qltb_lt b w)) by lra. reflexivity. }
    rewrite Ea, Eb, segment_integral_eq.
    destruct (clamp_above_spec R b) as (_ & _ & Ce & Ce').
    destruct (Qle_bool R a) eqn:E1.
    + apply Qle_bool_iff in E1.
      assert (E2 : Qle_bool R b = true) by (apply Qle_bool_iff; lra).
      rewrite E2. lra.
    + apply Qle_bool_false in E1. rewrite simpson_constant by exact Hab.
      destruct (Qle_bool R b) eqn:E2.
      * apply Qle_bool_iff in E2. rewrite (Ce E2). lra.
      * apply Qle_bool_false in E2. rewrite (Ce' E2). lra.
Qed.

Lemma disk_containment_exact (w : Q) (cs : list Q) (k : nat) (ck r : Q) :
  0 < w -> increasing cs -> head cs = Some 0 -> cs !! k = Some ck ->
  ck < w -> 0 <= r -> r <= ck ->
  integrate_nodes (combine cs (map (disk_value w) cs)) r == (r / w) ^ 2.
Proof.
  intros Hw Hinc Hhd Hk Hck Hr0 Hr.
  rewrite (integrate_disk_inside w cs k ck 0 r Hinc Hhd Hk Hck Hr).
  pose proof np_pi_pos.
  destruct (Qle_bool r 0) eqn:E.
  - apply Qle_bool_iff in E. assert (Hz : r == 0) by lra. rewrite Hz.
    field. lra.
  - unfold disk_amplitude. field. split; lra.
Qed.

Lemma simpson_le_constant (a fa b fb A x1 x2 : Q) :
  0 <= a -> a < b -> a <= x1 -> x1 <= x2 -> x2 <= b ->
  fa <= A -> fb <= A ->
  simpson (rad_integrand a fa b fb) x1 x2 <= np_pi * A * (x2 ^ 2 - x1 ^ 2).
Proof.
  intros Ha Hab H1 H12 H2 Hfa Hfb.
  rewrite <- (simpson_constant a b A x1 x2 Hab).
  assert (E : simpson (rad_integrand a A b A) x1 x2
              == simpson (rad_integrand a fa b fb) x1 x2
                 + simpson (rad_integrand a (A - fa) b (A - fb)) x1 x2).
  { unfold simpson, rad_integrand, interp_lin. field. lra. }
  rewrite E.
  pose proof (simpson_nonneg a (A - fa) b (A - fb) x1 x2 Ha Hab H1 H12 H2
                ltac:(lra) ltac:(lra)).
  lra.
Qed.

Lemma integrate_nodes_le_constant (A : Q) (cs ds : list Q) (a R : Q) :
  0 <= A -> increasing cs -> head cs = Some a -> 0 <= a ->
  Forall (fun d => d <= A) ds ->
  integrate_nodes (combine cs ds) R
  <= if Qle_bool R a then 0 else np_pi * A * (R ^ 2 - a ^ 2).
Proof.
  intros HA. revert ds a. pose proof np_pi_pos as Hpi.
  assert (Hbase : forall a, 0 <= a ->
    0 <= (if Qle_bool R a then 0 else np_pi * A * (R ^ 2 - a ^ 2))).
  { intros a Ha. destruct (Qle_bool R a) eqn:E; [lra|].
    apply Qle_bool_false in E.
    apply Qmult_le_0_compat; [apply Qmult_le_0_compat; lra | nra]. }
  induction cs as [|a0 cs IH]; intros ds a Hinc Hhd Ha Hd; [discriminate|].
  assert (Ea0 : a0 = a) by (cbn in Hhd; congruence). subst a0. clear Hhd.
  destruct (nodes_cases (a :: cs) ds)
    as [Hs | (a' & b & cs' & fa & fb & ds' & Ec & Ed)].
  - rewrite integrate_nodes_short by exact Hs. apply Hbase. exact Ha.
  - injection Ec as <- ->. subst ds. rewrite integrate_nodes_cons2.
    destruct Hinc as [Hab Hinc].
    inversion Hd as [|? ? Hfa Hd']; subst.
    pose proof Hd' as Hd''. inversion Hd'' as [|? ? Hfb _]; subst.
    pose proof (IH (fb :: ds') b Hinc eq_refl ltac:(lra) Hd') as Hrest.
    rewrite segment_integral_eq.
    destruct (clamp_above_spec R b) as (_ & _ & Ce & Ce').
    destruct (Qle_bool R a) eqn:E1.
    + apply Qle_bool_iff in E1.
      assert (E2 : Qle_bool R b = true) by (apply Qle_bool_iff; lra).
      rewrite E2 in Hrest. lra.
    + apply Qle_bool_false in E1.
      destruct (Qle_bool R b) eqn:E2.
      * apply Qle_bool_iff in E2. rewrite (Ce E2).
        pose proof (simpson_le_constant a fa b fb A a R Ha Hab
                      ltac:(lra) ltac:(lra) E2 Hfa Hfb).
        lra.
      * apply Qle_bool_false in E2. rewrite (Ce' E2).
        pose proof (simpson_le_constant a fa b fb A a b Ha Hab
                      ltac:(lra) ltac:(lra) ltac:(lra) Hfa Hfb).
        lra.
Qed.

Lemma disk_value_le (w : Q) (rad : list Q) :
  0 < w -> Forall (fun d => d <= disk_amplitude w) (map (disk_value w) rad).
Proof.
  intros Hw. apply List.Forall_forall. intros x Hx.
  apply in_map_iff in Hx as (r & <- & _). unfold disk_value.
  pose proof (disk_amplitude_pos w Hw). destruct (Qltb r w); lra.
Qed.

Lemma increasing_nonneg (cs : list Q) (a : Q) :
  increasing cs -> head cs = Some a -> 0 <= a -> nonneg cs.
Proof.
  revert a. induction cs as [|a0 cs IH]; intros a Hinc Hhd Ha; [constructor|].
  assert (Ea0 : a0 = a) by (cbn in Hhd; congruence). subst a0.
  constructor; [exact Ha|]. destruct cs as [|b cs]; [constructor|].
  destruct Hinc as [Hab Hinc]. apply (IH b); [exact Hinc | reflexivity | lra].
Qed.

Lemma disk_containment_upper (w : Q) (cs : list Q) (r : Q) :
  0 < w -> increasing cs -> head cs = Some 0 -> 0 <= r ->
  integrate_nodes (combine cs (map (disk_value w) cs)) r <= (r / w) ^ 2.
Proof.
  intros Hw Hinc Hhd Hr.
  pose proof (integrate_nodes_le_constant (disk_amplitude w) cs
                (map (disk_value w) cs) 0 r
                ltac:(pose proof (disk_amplitude_pos w Hw); lra)
                Hinc Hhd ltac:(lra) (disk_value_le w cs Hw)) as Hle.
  pose proof np_pi_pos.
  assert (E : np_pi * disk_amplitude w * (r ^ 2 - 0 ^ 2) == (r / w) ^ 2).
  { unfold disk_amplitude. field. split; lra. }
  destruct (Qle_bool r 0) eqn:E0.
  - assert (0 <= (r / w) ^ 2) by (generalize (r / w); intros x; nra).
    lra.
  - rewrite <- E. exact Hle.
Qed.

Lemma disk_containment_lower (w : Q) (cs : list Q) (k : nat) (ck r : Q) :
  0 < w -> increasing cs -> head cs = Some 0 -> cs !! k = Some ck ->
  ck < w -> ck <= r ->
  (ck / w) ^ 2 <= integrate_nodes (combine cs (map (disk_value w) cs)) r.
Proof.
  intros Hw Hinc Hhd Hk Hck Hr.
  assert (Hnn : nonneg cs) by (apply (increasing_nonneg cs 0); auto; lra).
  assert (Hck0 : 0 <= ck).
  { unfold nonneg in Hnn. rewrite List.Forall_forall in Hnn. apply Hnn.
    apply list_elem_of_In. eapply list_elem_of_lookup_2. exact Hk. }
  rewrite <- (disk_containment_exact w cs k ck ck Hw Hinc Hhd Hk Hck Hck0
                ltac:(lra)).
  apply integrate_nodes_mono; auto. apply disk_value_nonneg. exact Hw.
Qed.

Lemma sq_div_lt (w a b : Q) :
  0 < w -> 0 <= a -> a < b -> (a / w) ^ 2 < (b / w) ^ 2.
Proof.
  intros Hw Ha Hab.
  assert (E : (b / w) ^ 2 - (a / w) ^ 2 == (b - a) * (b + a) / (w * w))
    by (field; lra).
  assert (0 < (b - a) * (b + a) / (w * w)).
  { apply Qlt_shift_div_l; [nra|]. nra. }
  lra.
Qed.

Lemma sq_div_le (w a b : Q) :
  0 < w -> 0 <= a -> a <= b -> (a / w) ^ 2 <= (b / w) ^ 2.
Proof.
  intros Hw Ha Hab.
  assert (E : (b / w) ^ 2 - (a / w) ^ 2 == (b - a) * (b + a) / (w * w))
    by (field; lra).
  assert (0 <= (b - a) * (b + a) / (w * w)).
  { apply Qle_shift_div_l; [nra|]. nra. }
  lra.
Qed.

Lemma sq_half (w : Q) : 0 < w -> (w / 2 / w) ^ 2 == 1 # 4.
Proof. intros Hw. field. lra. Qed.

Lemma Qabs_below (x q : Q) : x <= q -> Qabs (x - q) == q - x.
Proof. intros Hx. rewrite Qabs_neg by lra. ring. Qed.

Lemma Qabs_above (x q : Q) : q <= x -> Qabs (x - q) == x - q.
Proof. intros Hx. rewrite Qabs_pos by lra. ring. Qed.

Section DiskRadius.
Context `{AxisCoord} `{Interpolator}.
Variables (w : Q) (rad : list Q).
Hypothesis Hw : 0 < w.
Hypothesis Hinc : increasing rad.
Hypothesis Hhd : head rad = Some 0.

Let psf : TablePSF.t :=
  TablePSF.mk (from_nodes rad "rad" Lin) (map (disk_value w) rad).
Let C (r : Q) : Q := integrate_nodes (combine rad (map (disk_value w) rad)) r.

Lemma disk_radius_bracket (c_last : Q) (i k : nat) (gi gi1 ck : Q) :
  last rad = Some c_last ->
  let grid := linspace 0 c_last (10 * length rad) in
  grid !! i = Some gi -> grid !! S i = Some gi1 ->
  gi <= w / 2 -> w / 2 <= gi1 ->
  rad !! k = Some ck -> ck < w -> gi1 <= ck ->
  exists rho,
    @TablePSF.containment_radius spec_integrate_rad psf [1 # 4] = Ok [rho] /\
    (rho = gi \/ rho = gi1) /\
    Qabs (rho - w / 2) <= gi1 - gi /\
    (gi == w / 2 -> rho = gi).
Proof.
  intros El grid Hgi Hgi1 Hlo Hhi Hk Hck Hg1k.
  destruct (@containment_radius_first_min spec_integrate_rad psf [1 # 4]
              c_last El) as (radii & Hrun & HF).
  inversion HF as [|f rho fs rs (idx & Hmin & Hrho) HF']; subst.
  inversion HF'; subst. clear HF HF'.
  change (linspace 0 c_last
            (10 * nbin (TablePSF.rad_axis psf))) with grid in *.
  set (sampled := @TablePSF.containment spec_integrate_rad psf grid) in *.
  assert (Hsamp : forall j gj, grid !! j = Some gj ->
             map (fun c => Qabs (c - (1 # 4))) sampled !! j
             = Some (Qabs (C gj - (1 # 4)))).
  { intros j gj Hj. unfold sampled, TablePSF.containment.
    rewrite !list_lookup_fmap, Hj. reflexivity. }
  remember (c_last / of_nat (10 * length rad - 1)) as step eqn:Estep.
  assert (Hgrid : forall j gj, grid !! j = Some gj -> gj == of_nat j * step).
  { intros j gj Hj. apply linspace_lookup in Hj. rewrite Hj, Estep.
    unfold Qdiv. ring. }
  pose proof (Hgrid _ _ Hgi) as Egi. pose proof (Hgrid _ _ Hgi1) as Egi1.
  assert (Hof : forall a b : nat, (a < b)%nat -> of_nat a + 1 <= of_nat b).
  { intros a b Hab. unfold of_nat.
    change 1 with (inject_Z 1). rewrite <- inject_Z_plus, <- Zle_Qle. lia. }
  assert (Hof0 : forall a : nat, 0 <= of_nat a).
  { intros a. unfold of_nat. change 0 with (inject_Z 0).
    rewrite <- Zle_Qle. lia. }
  assert (Hstep : 0 < step).
  { pose proof (Hof0 (S i)). pose proof (Hof O (S i) ltac:(lia)).
    assert (Hh : 0 < w / 2) by (apply Qlt_shift_div_l; lra).
    assert (0 < of_nat (S i) * step) by (rewrite <- Egi1; lra). nra. }
  assert (Hexact : forall g, 0 <= g -> g <= gi1 -> C g == (g / w) ^ 2).
  { intros g Hg0 Hg. unfold C.
    apply (disk_containment_exact w rad k ck g); auto. lra. }
  assert (Hmono : forall g g', g <= g' -> C g <= C g').
  { intros g g' Hgg. unfold C. apply integrate_nodes_mono; auto.
    - apply (increasing_nonneg rad 0); auto. lra.
    - apply disk_value_nonneg. exact Hw. }
  assert (Hgi0 : 0 <= gi) by (rewrite Egi; pose proof (Hof0 i); nra).
  assert (Hgi_le : gi <= gi1).
  { rewrite Egi, Egi1. pose proof (Hof i (S i) ltac:(lia)). nra. }
  assert (HCi : C gi <= 1 # 4).
  { rewrite (Hexact gi Hgi0 Hgi_le), <- (sq_half w Hw).
    apply sq_div_le; auto. }
  assert (HCi1 : (1 # 4) <= C gi1).
  { rewrite (Hexact gi1) by lra. rewrite <- (sq_half w Hw).
    apply sq_div_le; auto. lra. }
  destruct Hmin as (v & Hv & Hle & Hlt).
  rewrite (Hsamp _ _ Hrho) in Hv.
  assert (Ev : v = Qabs (C rho - (1 # 4))) by congruence. subst v. clear Hv.
  pose proof (Hgrid _ _ Hrho) as Erho.
  assert (Hidx_lo : (i <= idx)%nat).
  { destruct (le_lt_dec i idx) as [Hok|Hbad]; [exact Hok|exfalso].
    pose proof (Hle i _ (Hsamp _ _ Hgi)) as Hcmp.
    assert (Hrho_lt : rho < gi).
    { rewrite Erho, Egi. pose proof (Hof idx i Hbad). nra. }
    assert (Hrho0 : 0 <= rho) by (rewrite Erho; pose proof (Hof0 idx); nra).
    assert (HClt : C rho < C gi).
    { rewrite (Hexact rho) by lra. rewrite (Hexact gi) by lra.
      apply sq_div_lt; auto. }
    rewrite (Qabs_below (C rho)) in Hcmp by lra.
    rewrite (Qabs_below (C gi)) in Hcmp by lra. lra. }
  assert (Hidx_hi : (idx <= S i)%nat).
  { destruct (le_lt_dec idx (S i)) as [Hok|Hbad]; [exact Hok|exfalso].
    pose proof (Hlt (S i) _ Hbad (Hsamp _ _ Hgi1)) as Hcmp.
    assert (Hrho_ge : gi1 <= rho).
    { rewrite Erho, Egi1. pose proof (Hof (S i) idx Hbad). nra. }
    pose proof (Hmono gi1 rho Hrho_ge).
    rewrite (Qabs_above (C rho)) in Hcmp by lra.
    rewrite (Qabs_above (C gi1)) in Hcmp by lra. lra. }
  assert (Hcases : rho = gi \/ rho = gi1).
  { assert (idx = i \/ idx = S i) as [-> | ->] by lia;
      [left | right]; congruence. }
  exists rho. split; [exact Hrun|]. split; [exact Hcases|]. split.
  - destruct Hcases as [-> | ->].
    + rewrite Qabs_below by exact Hlo. lra.
    + rewrite Qabs_above by exact Hhi. lra.
  - intros Ehalf.
    assert (idx = i \/ idx = S i) as [-> | ->] by lia; [congruence|].
    exfalso.
    pose proof (Hlt i _ ltac:(lia) (Hsamp _ _ Hgi)) as Hcmp.
    assert (HCe : C gi == 1 # 4).
    { rewrite (Hexact gi Hgi0 Hgi_le), <- (sq_half w Hw).
      unfold Qdiv. rewrite Ehalf. reflexivity. }
    rewrite (Qabs_above (C gi)) in Hcmp by lra.
    pose proof (Qabs_nonneg (C rho - (1 # 4))). lra.
Qed.
End DiskRadius.

Section Disk.
Context `{AxisCoord} `{Interpolator}.

(** C5: the disk PSF of [from_shape("disk", width=w, rad)] over rad nodes
    that start at 0 has the density [1 / (pi w^2)] below [w] and 0
    elsewhere.  Its containment at [r] never exceeds [(r / w)^2], equals
    [(r / w)^2] for every [r] up to a rad node inside the disk and is at
    least [(ck / w)^2] beyond such a node [ck] (so it is off by at most the
    last grid cell before [w]); e.g. the containment at [w / 2] is 1/4.
    [containment_radius(0.25)] returns one of the two sampled radii that
    bracket [w / 2], so it is within one step of the sampling grid of
    [w / 2], and it is [w / 2] itself when that is a sampled radius. *)
Theorem disk_containment (w : Q) (rad : list Q) :
  0 < w -> increasing rad -> head rad = Some 0 ->
  exists psf,
    TablePSF.from_shape "disk" w rad = Ok psf /\
    TablePSF.data psf
      = map (fun r => if Qltb r w then 1 / (np_pi * w ^ 2) else 0) rad /\
    (forall r, 0 <= r ->
       exists c,
         @TablePSF.containment spec_integrate_rad psf [r] = [c] /\
         c <= (r / w) ^ 2 /\
         forall k ck, rad !! k = Some ck -> ck < w ->
           (r <= ck -> c == (r / w) ^ 2) /\
           (ck <= r -> (ck / w) ^ 2 <= c)) /\
    (forall c_last i k gi gi1 ck,
       last rad = Some c_last ->
       linspace 0 c_last (10 * length rad) !! i = Some gi ->
       linspace 0 c_last (10 * length rad) !! S i = Some gi1 ->
       gi <= w / 2 -> w / 2 <= gi1 ->
       rad !! k = Some ck -> ck < w -> gi1 <= ck ->
       exists rho,
         @TablePSF.containment_radius spec_integrate_rad psf [1 # 4]
           = Ok [rho] /\
         (rho = gi \/ rho = gi1) /\
         Qabs (rho - w / 2) <= gi1 - gi /\
         (gi == w / 2 -> rho = gi)).
Proof.
  intros Hw Hinc Hhd. eexists. split; [apply from_shape_disk|].
  split; [reflexivity|]. split.
  - intros r Hr. eexists. split; [reflexivity|]. split.
    + apply disk_containment_upper; assumption.
    + intros k ck Hk Hck. split.
      * intros Hle. apply (disk_containment_exact w rad k ck); assumption.
      * intros Hge. apply (disk_containment_lower w rad k ck); assumption.
  - intros c_last i k gi gi1 ck El Hgi Hgi1 Hlo Hhi Hk Hck Hg.
    apply (disk_radius_bracket w rad Hw Hinc Hhd c_last i k gi gi1 ck);
      assumption.
Qed.
End Disk.

Lemma disk_containment_witness :
  exists psf,
    @TablePSF.from_shape lin_axis_coord ex_interpolator "disk" 2 ex_disk_rad
      = Ok psf /\
    (exists c, @TablePSF.containment spec_integrate_rad psf [1] = [c] /\
               c == 1 # 4) /\
    (exists rho, @TablePSF.containment_radius spec_integrate_rad psf [1 # 4]
                   = Ok [rho] /\ rho == 1).
Proof.
  destruct (@disk_containment lin_axis_coord ex_interpolator 2 ex_disk_rad)
    as (psf & Hpsf & _ & Hcont & Hrad).
  - reflexivity.
  - cbn. repeat split; reflexivity.
  - reflexivity.
  - exists psf. split; [exact Hpsf|]. split.
    + destruct (Hcont 1 ltac:(discriminate)) as (c & Hc & _ & Hk).
      exists c. split; [exact Hc|].
      destruct (Hk 2%nat (13 # 10) eq_refl eq_refl) as [Hex _].
      rewrite Hex by discriminate. reflexivity.
    + destruct (Hrad (39 # 20) 20%nat 2%nat
                  (0 + of_nat 20 * (((39 # 20) - 0) / of_nat 39))
                  (0 + of_nat 21 * (((39 # 20) - 0) / of_nat 39))
                  (13 # 10))
        as (rho & Hrho & _ & _ & Hex);
        try reflexivity; try discriminate.
      exists rho. split; [exact Hrho|].
      rewrite Hex; reflexivity.
Defined.

Example disk_containment_radius_computed :
  match @TablePSF.containment_radius spec_integrate_rad
          (TablePSF.mk (@from_nodes lin_axis_coord ex_disk_rad "rad" Lin)
             (map (disk_value 2) ex_disk_rad)) [1 # 4] with
  | Ok [rho] => Qeq_bool rho 1
  | _ => false
  end = true.
Proof. vm_compute. reflexivity. Qed.

(** ** Normalisations *)

Lemma Qeq_bool_false (x y : Q) : ~ x == y -> Qeq_bool x y = false.
Proof.
  intros Hne. destruct (Qeq_bool x y) eqn:E; [|reflexivity].
  apply Qeq_bool_iff in E. contradiction.
Qed.

Lemma Qeq_bool_true (x y : Q) : x == y -> Qeq_bool x y = true.
Proof. apply Qeq_bool_iff. Qed.

Lemma np_divide_finite (x y : Q) : ~ y == 0 -> np_divide x y = Finite (x / y).
Proof. intros Hy. unfold np_divide. rewrite Qeq_bool_false by exact Hy. reflexivity. Qed.

Lemma np_divide_zero (x y : Q) : y == 0 -> is_finite (np_divide x y) = false.
Proof.
  intros Hy. unfold np_divide. rewrite Qeq_bool_true by exact Hy.
  destruct (Qeq_bool x 0), (Qltb 0 x); reflexivity.
Qed.

Lemma np_sum_finite (l : list Q) : np_sum (map Finite l) = Finite (Qsum l).
Proof.
  induction l as [|x l IH]; [reflexivity|].
  cbn [map np_sum fold_right] in *. unfold np_sum in IH. rewrite IH.
  reflexivity.
Qed.

Lemma Qsum_scale (l : list Q) (c : Q) :
  Qsum (map (fun x => x / c) l) == Qsum l / c.
Proof.
  induction l as [|x l IH]; cbn [map Qsum fold_right].
  - unfold Qdiv. ring.
  - unfold Qsum in IH. rewrite IH. unfold Qdiv. ring.
Qed.

Lemma np_add_nonfinite (x y : npfloat) :
  is_finite x = false -> is_finite (np_add x y) = false.
Proof. destruct x, y; intros Hx; try discriminate; reflexivity. Qed.

Lemma np_sum_nonfinite (l : list npfloat) :
  l <> [] -> Forall (fun x => is_finite x = false) l ->
  is_finite (np_sum l) = false.
Proof.
  intros Hne Hl. destruct Hl as [|x l Hx Hl]; [contradiction|].
  cbn [np_sum fold_right]. apply np_add_nonfinite. exact Hx.
Qed.

Section Weights.
Context `{SpectralModels}.

End Weights.



Lemma simpson_scale (a fa b fb c x1 x2 : Q) :
  simpson (rad_integrand a (fa / c) b (fb / c)) x1 x2
  == simpson (rad_integrand a fa b fb) x1 x2 / c.
Proof. unfold simpson, rad_integrand, interp_lin, Qdiv. ring. Qed.

Lemma segment_integral_scale (a fa b fb c R : Q) :
  segment_integral a (fa / c) b (fb / c) R
  == segment_integral a fa b fb R / c.
Proof.
  unfold segment_integral. destruct (Qle_bool R a).
  - unfold Qdiv. ring.
  - apply simpson_scale.
Qed.

Lemma integrate_nodes_scale (cs ds : list Q) (c R : Q) :
  integrate_nodes (combine cs (map (fun d => d / c) ds)) R
  == integrate_nodes (combine cs ds) R / c.
Proof.
  revert ds. induction cs as [|a cs IH]; intros ds.
  - cbn. unfold Qdiv. ring.
  - destruct (nodes_cases (a :: cs) ds)
      as [Hs | (a' & b & cs' & fa & fb & ds' & Ec & Ed)].
    + rewrite !integrate_nodes_short;
        [unfold Qdiv; ring | exact Hs | rewrite length_map; exact Hs].
    + injection Ec as <- ->. subst ds. cbn [map].
      rewrite !integrate_nodes_cons2.
      change (fb / c :: map (fun d => d / c) ds')
        with (map (fun d => d / c) (fb :: ds')).
      rewrite IH, segment_integral_scale. unfold Qdiv. ring.
Qed.

(** C7: [TablePSF.normalize] divides the data array by the containment at the
    last edge of the rad axis.  When that integral is not zero (in
    particular when it is positive) every value stays finite and the
    containment at the last edge of the normalized PSF is 1; when it is zero
    nothing is raised and every value of the data array is non-finite. *)
Theorem normalize_unit_integral (psf : TablePSF.t) (e_last integral : Q) :
  last (edges (TablePSF.rad_axis psf)) = Some e_last ->
  @TablePSF.containment spec_integrate_rad psf [e_last] = [integral] ->
  exists data',
    @TablePSF.normalize spec_integrate_rad psf = Ok data' /\
    data' = map (fun d => np_divide d integral) (TablePSF.data psf) /\
    (~ integral == 0 ->
       exists values total,
         data' = map Finite values /\
         @TablePSF.containment spec_integrate_rad
           (TablePSF.mk (TablePSF.rad_axis psf) values) [e_last] = [total] /\
         total == 1) /\
    (integral == 0 -> Forall (fun x => is_finite x = false) data').
Proof.
  intros El Hint. eexists. split; [|split; [reflexivity|]].
  - unfold TablePSF.normalize, last_item. rewrite El, bind_Ok, Hint.
    reflexivity.
  - split.
    + intros Hne.
      exists (map (fun d => d / integral) (TablePSF.data psf)). eexists.
      split; [|split; [reflexivity|]].
      * rewrite map_map. apply map_ext. intros d.
        apply np_divide_finite. exact Hne.
      * unfold _integrate_rad, spec_integrate_rad.
        cbn [TablePSF.rad_axis TablePSF.data].
        rewrite integrate_nodes_scale.
        injection Hint as Hint. unfold _integrate_rad, spec_integrate_rad in Hint.
        rewrite Hint. field. exact Hne.
    + intros Hz. apply List.Forall_forall. intros x Hx.
      apply in_map_iff in Hx as (d & <- & _). apply np_divide_zero. exact Hz.
Qed.

Lemma containment_radius_nearest_grid_point_witness :
  exists radii,
    @TablePSF.containment_radius spec_integrate_rad ex_table_psf
      [1 # 4; 1 # 2] = Ok radii.
Proof.
  destruct (@containment_radius_nearest_grid_point spec_integrate_rad
              ex_table_psf [1 # 4; 1 # 2])
    as (c_last & radii & _ & Hrun & _).
  - cbn. lia.
  - exists radii. exact Hrun.
Defined.

Lemma containment_monotone_witness :
  exists c1 c2,
    @TablePSF.containment spec_integrate_rad ex_table_psf [1; 3 # 2]
      = [c1; c2] /\ c1 <= c2.
Proof.
  apply (containment_monotone ex_table_psf 1 (3 # 2)).
  - cbn. repeat split; reflexivity.
  - repeat constructor; discriminate.
  - apply disk_value_nonneg. reflexivity.
  - discriminate.
Defined.

Lemma normalize_unit_integral_witness :
  exists values total,
    @TablePSF.normalize spec_integrate_rad ex_table_psf
      = Ok (map Finite values) /\
    @TablePSF.containment spec_integrate_rad
      (TablePSF.mk (TablePSF.rad_axis ex_table_psf) values) [ex_e_last]
      = [total] /\
    total == 1.
Proof.
  destruct (normalize_unit_integral ex_table_psf ex_e_last ex_integral)
    as (data' & Hrun & _ & Hpos & _).
  - vm_compute. reflexivity.
  - vm_compute. reflexivity.
  - destruct Hpos as (values & total & Hd & Hc & Ht).
    + vm_compute. discriminate.
    + exists values, total. split; [congruence|]. split; assumption.
Defined.

Example normalize_zero_integral :
  @TablePSF.normalize spec_integrate_rad
    (TablePSF.mk (@from_nodes lin_axis_coord ex_disk_rad "rad" Lin)
       [0; 0; 0; 0])
  = Ok [NaN; NaN; NaN; NaN].
Proof. vm_compute. reflexivity. Qed.

(** * Further properties of the table PSFs *)

(** ** Containment radius *)

Lemma of_nat_le (i j : nat) : (i <= j)%nat -> of_nat i <= of_nat j.
Proof. intros Hij. unfold of_nat. rewrite <- Zle_Qle. lia. Qed.

Lemma linspace_mono (c : Q) (n i j : nat) (ri rj : Q) :
  0 <= c -> (i <= j)%nat ->
  linspace 0 c n !! i = Some ri -> linspace 0 c n !! j = Some rj -> ri <= rj.
Proof.
  intros Hc Hij Hi Hj.
  apply linspace_lookup in Hi, Hj. rewrite Hi, Hj.
  pose proof (of_nat_le i j Hij) as Hle.
  assert (Hs : 0 <= (c - 0) / of_nat (n - 1)).
  { destruct (n - 1)%nat as [|k] eqn:E.
    - unfold of_nat. cbn. unfold Qdiv. cbn. rewrite Qmult_0_r. lra.
    - apply Qle_shift_div_l; [apply of_nat_pos; lia | lra]. }
  nra.
Qed.

Lemma linspace_bounds (c : Q) (n i : nat) (r : Q) :
  0 <= c -> linspace 0 c n !! i = Some r -> 0 <= r <= c.
Proof.
  intros Hc Hi.
  pose proof (lookup_lt_Some _ _ _ Hi) as Hlt. rewrite linspace_length in Hlt.
  destruct (linspace_first 0 c n) as (r0 & Hr0 & E0); [lia|].
  split.
  - rewrite <- E0. apply (linspace_mono c n 0 i); auto. lia.
  - destruct (Nat.eq_dec n 1%nat) as [->|Hn1].
    + destruct i; [|cbn in Hi; discriminate]. cbn in Hi.
      injection Hi as <-. exact Hc.
    + destruct (linspace_last 0 c n) as (r1 & Hr1 & E1); [lia|].
      rewrite <- E1. apply (linspace_mono c n i (n - 1)); auto. lia.
Qed.

Section Radius.
Context `{RadIntegrator}.

(** X2: on a PSF whose last rad node is not negative [containment_radius]
    returns one radius per requested fraction, and each radius lies between
    0 and the last rad node, whatever the fraction is (also for fractions
    below 0 or above 1). *)
Theorem containment_radius_within_axis (psf : TablePSF.t)
    (fraction : list Q) (c_last : Q) :
  last (center (TablePSF.rad_axis psf)) = Some c_last -> 0 <= c_last ->
  exists radii,
    TablePSF.containment_radius psf fraction = Ok radii /\
    length radii = length fraction /\
    Forall (fun r => 0 <= r <= c_last) radii.
Proof.
  intros El Hc.
  destruct (containment_radius_first_min psf fraction c_last El)
    as (radii & Hrun & HF).
  exists radii. split; [exact Hrun|]. split.
  - symmetry. exact (Forall2_length _ _ _ HF).
  - clear Hrun. induction HF as [|f r fs rs (i & _ & Hi) HF IH];
      constructor; [|exact IH].
    exact (linspace_bounds _ _ _ _ Hc Hi).
Qed.
End Radius.

Lemma Qabs_cases (x : Q) :
  (0 <= x /\ Qabs x == x) \/ (x <= 0 /\ Qabs x == - x).
Proof.
  destruct (Qlt_le_dec x 0) as [Hn|Hp].
  - right. split; [lra|]. apply Qabs_neg. lra.
  - left. split; [exact Hp|]. apply Qabs_pos. exact Hp.
Qed.

Lemma nearest_index_order (a b f1 f2 : Q) :
  a <= b -> f1 <= f2 ->
  Qabs (b - f1) < Qabs (a - f1) -> Qabs (a - f2) <= Qabs (b - f2) -> False.
Proof.
  intros Hab Hf H1 H2.
  destruct (Qabs_cases (b - f1)) as [[? E1]|[? E1]];
  destruct (Qabs_cases (a - f1)) as [[? E2]|[? E2]];
  destruct (Qabs_cases (a - f2)) as [[? E3]|[? E3]];
  destruct (Qabs_cases (b - f2)) as [[? E4]|[? E4]];
  rewrite E1, E2 in H1; rewrite E3, E4 in H2; lra.
Qed.

Lemma last_nonneg (l : list Q) (x : Q) :
  nonneg l -> last l = Some x -> 0 <= x.
Proof.
  intros Hl Hx. unfold nonneg in Hl.
  rewrite List.Forall_forall in Hl. apply Hl.
  apply list_elem_of_In. rewrite last_lookup in Hx.
  apply (list_elem_of_lookup_2 _ _ _ Hx).
Qed.

(** X3: for a PSF with non-negative data over non-negative, strictly
    increasing rad nodes, whose containment is the radial integral, the
    containment radius does not decrease with the requested fraction. *)
Theorem containment_radius_monotone_in_fraction (psf : TablePSF.t)
    (f1 f2 : Q) :
  center (TablePSF.rad_axis psf) <> [] ->
  increasing (center (TablePSF.rad_axis psf)) ->
  nonneg (center (TablePSF.rad_axis psf)) ->
  nonneg (TablePSF.data psf) ->
  f1 <= f2 ->
  exists r1 r2,
    @TablePSF.containment_radius spec_integrate_rad psf [f1; f2]
    = Ok [r1; r2] /\
    r1 <= r2.
Proof.
  intros Hne Hinc Hc Hd Hf.
  destruct (last (center (TablePSF.rad_axis psf))) as [c_last|] eqn:El;
    [|apply last_None in El; contradiction].
  pose proof (last_nonneg _ _ Hc El) as Hcl.
  destruct (@containment_radius_first_min spec_integrate_rad psf [f1; f2]
              c_last El) as (radii & Hrun & HF).
  cbv zeta in HF.
  set (grid := linspace 0 c_last (10 * nbin (TablePSF.rad_axis psf))) in *.
  inversion HF as [|? r1 ? rs1 (i1 & Hm1 & Hg1) HF1]; subst.
  inversion HF1 as [|? r2 ? rs2 (i2 & Hm2 & Hg2) HF2]; subst.
  inversion HF2; subst. clear HF HF1 HF2.
  exists r1, r2. split; [exact Hrun|].
  destruct (le_lt_dec i1 i2) as [Hle|Hlt].
  { exact (linspace_mono _ _ _ _ _ _ Hcl Hle Hg1 Hg2). }
  exfalso.
  assert (Hs : forall i r, grid !! i = Some r ->
    @TablePSF.containment spec_integrate_rad psf grid !! i
    = Some (integrate_nodes
              (combine (center (TablePSF.rad_axis psf)) (TablePSF.data psf))
              r)).
  { intros i r Hi. unfold TablePSF.containment.
    rewrite list_lookup_fmap, Hi. reflexivity. }
  destruct Hm1 as (v1 & Hv1 & _ & Hlt1). destruct Hm2 as (v2 & Hv2 & Hle2 & _).
  rewrite list_lookup_fmap, (Hs _ _ Hg1) in Hv1.
  rewrite list_lookup_fmap, (Hs _ _ Hg2) in Hv2.
  assert (E1 : v1 = Qabs (integrate_nodes
              (combine (center (TablePSF.rad_axis psf)) (TablePSF.data psf))
              r1 - f1))
    by (cbn [fmap option_fmap option_map] in Hv1; congruence).
  assert (E2 : v2 = Qabs (integrate_nodes
              (combine (center (TablePSF.rad_axis psf)) (TablePSF.data psf))
              r2 - f2))
    by (cbn [fmap option_fmap option_map] in Hv2; congruence).
  subst v1 v2.
  pose proof (linspace_mono _ _ _ _ _ _ Hcl (Nat.lt_le_incl _ _ Hlt) Hg2 Hg1)
    as Hr21.
  pose proof (integrate_nodes_mono _ _ _ _ Hinc Hc Hd Hr21) as Hab.
  apply (nearest_index_order _ _ f1 f2 Hab Hf).
  - apply (Hlt1 i2); [exact Hlt|].
    rewrite list_lookup_fmap, (Hs _ _ Hg2). reflexivity.
  - apply (Hle2 i1). rewrite list_lookup_fmap, (Hs _ _ Hg1). reflexivity.
Qed.

Lemma containment_radius_within_axis_witness :
  exists radii,
    @TablePSF.containment_radius spec_integrate_rad ex_table_psf
      [-1; 1 # 2; 2] = Ok radii /\
    length radii = 3%nat /\
    Forall (fun r => 0 <= r <= 39 # 20) radii.
Proof.
  apply (@containment_radius_within_axis spec_integrate_rad ex_table_psf
           [-1; 1 # 2; 2] (39 # 20)); [reflexivity | discriminate].
Defined.

Lemma containment_radius_monotone_in_fraction_witness :
  exists r1 r2,
    @TablePSF.containment_radius spec_integrate_rad ex_table_psf
      [1 # 4; 1 # 2] = Ok [r1; r2] /\ r1 <= r2.
Proof.
  apply (containment_radius_monotone_in_fraction ex_table_psf
           (1 # 4) (1 # 2)).
  - discriminate.
  - cbn. repeat split; reflexivity.
  - repeat constructor; discriminate.
  - apply disk_value_nonneg. reflexivity.
  - discriminate.
Defined.

(** ** Normalisation *)

Lemma map_Finite_inj (l l' : list Q) : map Finite l = map Finite l' -> l = l'.
Proof.
  revert l'. induction l as [|x l IH]; intros [|y l'] E; try discriminate;
    [reflexivity|].
  cbn [map] in E. injection E as -> E. f_equal. apply IH. exact E.
Qed.

(** X4: normalising a second time changes nothing: when [normalize] left
    finite values, [normalize] on the normalised PSF returns the same
    values again. *)
Theorem normalize_idempotent (psf : TablePSF.t) (values : list Q) :
  @TablePSF.normalize spec_integrate_rad psf = Ok (map Finite values) ->
  exists values',
    @TablePSF.normalize spec_integrate_rad
      (TablePSF.mk (TablePSF.rad_axis psf) values) = Ok (map Finite values') /\
    Forall2 Qeq values' values.
Proof.
  unfold TablePSF.normalize, TablePSF.containment, last_item.
  cbn [TablePSF.rad_axis TablePSF.data map first_item].
  destruct (last (edges (TablePSF.rad_axis psf))) as [e|]; [|discriminate].
  rewrite !bind_Ok. unfold _integrate_rad, spec_integrate_rad.
  set (cs := center (TablePSF.rad_axis psf)).
  set (I := integrate_nodes (combine cs (TablePSF.data psf)) e).
  intros Hn. assert (Hn' : map (fun d => np_divide d I) (TablePSF.data psf)
                           = map Finite values) by congruence.
  clear Hn.
  destruct (Qeq_dec I 0) as [Hz|Hnz].
  - destruct (TablePSF.data psf) as [|d ds].
    + destruct values; [|discriminate]. exists []. split; [reflexivity|].
      constructor.
    + cbn [map] in Hn'. destruct values as [|v vs]; [discriminate|].
      cbn [map] in Hn'. injection Hn' as Hd _.
      pose proof (np_divide_zero d I Hz) as Hf. rewrite Hd in Hf.
      discriminate.
  - assert (Ev : values = map (fun d => d / I) (TablePSF.data psf)).
    { apply map_Finite_inj. rewrite <- Hn', map_map. apply map_ext.
      intros d. apply np_divide_finite. exact Hnz. }
    set (I' := integrate_nodes (combine cs values) e).
    assert (HI' : I' == 1).
    { unfold I'. rewrite Ev, integrate_nodes_scale. fold I. field.
      exact Hnz. }
    assert (Hnz' : ~ I' == 0) by (rewrite HI'; discriminate).
    exists (map (fun d => d / I') values). split.
    + f_equal. rewrite map_map. apply map_ext. intros d.
      apply np_divide_finite. exact Hnz'.
    + clearbody I'. clear - HI'.
      induction values as [|v vs IH]; cbn [map]; [constructor|].
      constructor; [|exact IH]. rewrite HI'. field.
Qed.

Lemma normalize_idempotent_witness :
  exists values values',
    @TablePSF.normalize spec_integrate_rad ex_table_psf
    = Ok (map Finite values) /\
    @TablePSF.normalize spec_integrate_rad
      (TablePSF.mk (TablePSF.rad_axis ex_table_psf) values)
    = Ok (map Finite values') /\
    Forall2 Qeq values' values.
Proof.
  set (values := map (fun d => d / ex_integral) (TablePSF.data ex_table_psf)).
  assert (Hn : @TablePSF.normalize spec_integrate_rad ex_table_psf
               = Ok (map Finite values)) by (vm_compute; reflexivity).
  destruct (normalize_idempotent ex_table_psf values Hn)
    as (values' & Hrun & Heq).
  exists values, values'. split; [exact Hn|]. split; assumption.
Defined.

(** ** The gtpsf HDU list *)

Section Gtpsf.
Context `{AxisCoord}.

(** X6: writing what [from_hdulist] has read gives the HDU list back:
    [to_hdulist] of the PSF read from [h] is [h], for every HDU list that
    [from_hdulist] accepts. *)
Theorem to_hdulist_from_hdulist (h : EnergyDependentTablePSF.hdulist)
    (psf : EnergyDependentTablePSF.t) :
  EnergyDependentTablePSF.from_hdulist h = Ok psf ->
  EnergyDependentTablePSF.to_hdulist psf = h.
Proof.
  unfold EnergyDependentTablePSF.from_hdulist. intros Hr.
  apply EnergyDependentTablePSF_init_inv in Hr as (_ & _ & ->).
  destruct h. reflexivity.
Qed.
End Gtpsf.

Lemma to_hdulist_from_hdulist_witness :
  exists psf,
    @EnergyDependentTablePSF.from_hdulist lin_axis_coord
      (EnergyDependentTablePSF.mk_hdulist [0; 1; 2] [1; 10] [5; 5]
         ex_table2d) = Ok psf /\
    EnergyDependentTablePSF.to_hdulist psf
    = EnergyDependentTablePSF.mk_hdulist [0; 1; 2] [1; 10] [5; 5] ex_table2d.
Proof.
  eexists. split; [reflexivity|].
  apply (@to_hdulist_from_hdulist lin_axis_coord). reflexivity.
Defined.

(** ** The weights of the energy band *)

Lemma np_divide_scale (c x x' y y' : Q) :
  0 < c -> x' == c * x -> y' == c * y ->
  npfloat_eq (np_divide x' y') (np_divide x y).
Proof.
  intros Hc Hx Hy. unfold np_divide.
  destruct (Qeq_dec y 0) as [Hy0|Hy0].
  - rewrite (Qeq_bool_true y 0) by exact Hy0.
    rewrite (Qeq_bool_true y' 0) by (rewrite Hy, Hy0; ring).
    destruct (Qeq_dec x 0) as [Hx0|Hx0].
    + rewrite (Qeq_bool_true x 0) by exact Hx0.
      rewrite (Qeq_bool_true x' 0) by (rewrite Hx, Hx0; ring). exact I.
    + rewrite (Qeq_bool_false x 0) by exact Hx0.
      rewrite (Qeq_bool_false x' 0)
        by (rewrite Hx; intros E; apply Hx0; nra).
      destruct (Qltb 0 x) eqn:E.
      * apply Qltb_lt in E.
        rewrite (proj2 (Qltb_lt 0 x')) by (rewrite Hx; nra). exact I.
      * apply Qltb_ge in E.
        rewrite (proj2 (Qltb_ge 0 x')) by (rewrite Hx; nra). exact I.
  - rewrite (Qeq_bool_false y 0) by exact Hy0.
    rewrite (Qeq_bool_false y' 0) by (rewrite Hy; intros E; apply Hy0; nra).
    cbn. rewrite Hx, Hy. field. split; [exact Hy0 | lra].
Qed.

Lemma Qsum_mult (c : Q) (l : list Q) :
  Qsum (map (fun x => c * x) l) == c * Qsum l.
Proof.
  induction l as [|x l IH]; cbn [map Qsum fold_right].
  - ring.
  - unfold Qsum in IH. rewrite IH. ring.
Qed.

Lemma Qsum_ext {A} (f g : A -> Q) (l : list A) :
  (forall x, f x == g x) -> Qsum (map f l) == Qsum (map g l).
Proof.
  intros Hfg. induction l as [|x l IH]; cbn [map Qsum fold_right];
    [reflexivity|].
  unfold Qsum in IH. rewrite IH, Hfg. reflexivity.
Qed.

Lemma Qsum_nonneg (l : list Q) : nonneg l -> 0 <= Qsum l.
Proof.
  induction 1 as [|x l Hx Hl IH]; cbn [Qsum fold_right]; [lra|].
  unfold Qsum in IH. lra.
Qed.

Lemma Qsum_ge (l : list Q) (x : Q) : nonneg l -> In x l -> x <= Qsum l.
Proof.
  induction 1 as [|y l Hy Hl IH]; intros Hin; [destruct Hin|].
  cbn [Qsum fold_right]. pose proof (Qsum_nonneg l Hl) as Hs.
  unfold Qsum in *. destruct Hin as [->|Hin]; [lra|].
  specialize (IH Hin). lra.
Qed.

Section WeightFacts.
Context `{SpectralModels}.

(** X7: the weights of [table_psf_in_energy_range] do not depend on the
    amplitude of the spectrum: a spectrum multiplied by a positive constant
    gives the same weights. *)
Theorem weights_scale_invariant (psf : EnergyDependentTablePSF.t)
    (energy_range : Q * Q) (spectrum : Q -> Q) (c : Q) (n_bins : nat) :
  0 < c ->
  Forall2 npfloat_eq
    (EnergyDependentTablePSF.table_psf_in_energy_range_weights psf
       energy_range (Some (fun e => c * spectrum e)) n_bins)
    (EnergyDependentTablePSF.table_psf_in_energy_range_weights psf
       energy_range (Some spectrum) n_bins).
Proof.
  intros Hc.
  unfold EnergyDependentTablePSF.table_psf_in_energy_range_weights,
    EnergyDependentTablePSF.table_psf_in_energy_range_raw_weights.
  destruct energy_range as [e_min e_max]. cbv zeta.
  change (default power_law (Some ?s)) with s.
  set (exposure := template _ _).
  set (energy := energy_bounds_edges e_min e_max n_bins).
  cbv beta.
  assert (Hsum : Qsum (map (fun e => c * spectrum e * exposure e) energy)
                 == c * Qsum (map (fun e => spectrum e * exposure e) energy)).
  { rewrite <- Qsum_mult, map_map. apply Qsum_ext. intros e. ring. }
  revert Hsum.
  generalize (Qsum (map (fun e => c * spectrum e * exposure e) energy)).
  generalize (Qsum (map (fun e => spectrum e * exposure e) energy)).
  intros S S' Hsum.
  rewrite !map_map.
  induction energy as [|e energy IH]; cbn [map]; [constructor|].
  constructor; [|exact IH].
  apply (np_divide_scale c); [exact Hc | ring | exact Hsum].
Qed.

(** X8: when the raw weights [spectrum(e) * exposure(e)] are non-negative
    and do not all vanish, every weight of [table_psf_in_energy_range] is
    a finite number between 0 and 1. *)
Theorem weights_in_unit_interval (psf : EnergyDependentTablePSF.t)
    (energy_range : Q * Q) (spectrum : option (Q -> Q)) (n_bins : nat) :
  nonneg (EnergyDependentTablePSF.table_psf_in_energy_range_raw_weights
            psf energy_range spectrum n_bins) ->
  ~ Qsum (EnergyDependentTablePSF.table_psf_in_energy_range_raw_weights
            psf energy_range spectrum n_bins) == 0 ->
  exists ws,
    EnergyDependentTablePSF.table_psf_in_energy_range_weights
      psf energy_range spectrum n_bins = map Finite ws /\
    Forall (fun w => 0 <= w <= 1) ws.
Proof.
  intros Hnn Hne.
  unfold EnergyDependentTablePSF.table_psf_in_energy_range_weights.
  set (raw := EnergyDependentTablePSF.table_psf_in_energy_range_raw_weights
                psf energy_range spectrum n_bins) in *.
  cbv zeta.
  exists (map (fun w => w / Qsum raw) raw). split.
  - rewrite map_map. apply map_ext. intros w.
    apply np_divide_finite. exact Hne.
  - pose proof (Qsum_nonneg raw Hnn) as Hs.
    assert (Hpos : 0 < Qsum raw) by lra.
    apply List.Forall_forall. intros w Hw.
    apply in_map_iff in Hw as (x & <- & Hx).
    pose proof (Qsum_ge raw x Hnn Hx) as Hle.
    unfold nonneg in Hnn. rewrite List.Forall_forall in Hnn.
    pose proof (Hnn x Hx) as H0.
    split.
    + apply Qle_shift_div_l; [exact Hpos | lra].
    + apply Qle_shift_div_r; [exact Hpos | lra].
Qed.
End WeightFacts.

Lemma weights_scale_invariant_witness :
  Forall2 npfloat_eq
    (@EnergyDependentTablePSF.table_psf_in_energy_range_weights
       ex_spectral_models ex_edpsf (1, 4) (Some (fun e => 3 * (1 / e))) 3)
    (@EnergyDependentTablePSF.table_psf_in_energy_range_weights
       ex_spectral_models ex_edpsf (1, 4) (Some (fun e => 1 / e)) 3).
Proof.
  apply (@weights_scale_invariant ex_spectral_models ex_edpsf (1, 4)
           (fun e => 1 / e) 3 3).
  reflexivity.
Defined.

Lemma weights_in_unit_interval_witness :
  exists ws,
    @EnergyDependentTablePSF.table_psf_in_energy_range_weights
      ex_spectral_models ex_edpsf (1, 4) None 3 = map Finite ws /\
    Forall (fun w => 0 <= w <= 1) ws.
Proof.
  apply (@weights_in_unit_interval ex_spectral_models ex_edpsf (1, 4) None 3).
  - vm_compute. repeat constructor; discriminate.
  - vm_compute. discriminate.
Defined.

(** ** The PSF3D table *)

(** X9: [PSF3D.to_hdulist] stores the data cube with its axes reversed
    under one leading row axis: the RPSF column has the shape
    (1, n_rad, n_offset, n_energy) for a data cube of shape
    (n_energy, n_offset, n_rad), and the value of the data cube at a
    multi-index is found at the reversed multi-index of row 0. *)
Theorem to_hdulist_layout (psf : PSF3D.t) (tbl : PSF3D.table) :
  PSF3D.to_hdulist psf = Ok tbl ->
  shape (PSF3D.RPSF tbl) = 1%nat :: rev (shape (PSF3D.data psf)) /\
  forall idx, valid_index (shape (PSF3D.data psf)) idx ->
    item (PSF3D.RPSF tbl) (0%nat :: rev idx) = item (PSF3D.data psf) idx.
Proof.
  unfold PSF3D.to_hdulist. intros Hw.
  apply bind_inv in Hw as (lo & _ & Hw).
  apply bind_inv in Hw as (hi & _ & Hw).
  injection Hw as <-. cbn [PSF3D.RPSF]. split; [reflexivity|].
  intros idx Hv. rewrite <- (item_transpose _ _ Hv).
  unfold item, newaxis. cbn [shape flat offset]. reflexivity.
Qed.

Lemma to_hdulist_layout_witness :
  exists tbl,
    PSF3D.to_hdulist (ex_psf3d ex_meta) = Ok tbl /\
    shape (PSF3D.RPSF tbl) = [1; 3; 1; 2]%nat /\
    item (PSF3D.RPSF tbl) [0; 2; 0; 1]%nat = item ex_cube [1; 0; 2]%nat.
Proof.
  eexists. split; [reflexivity|].
  destruct (to_hdulist_layout (ex_psf3d ex_meta) _ eq_refl) as (Hs & Hi).
  split; [exact Hs|].
  apply (Hi [1; 0; 2]%nat). repeat constructor.
Defined.

Section Meta.
Context `{AxisCoord}.

(** X10: of the metadata of a [PSF3D] only the two thresholds survive a
    write and read: the PSF read back from the table that [to_hdulist]
    wrote has the entries LO_THRES and HI_THRES of the original and no
    other entry. *)
Theorem fits_roundtrip_keeps_only_thresholds (psf psf' : PSF3D.t)
    (tbl : PSF3D.table) :
  PSF3D.to_hdulist psf = Ok tbl ->
  PSF3D.from_table tbl = Ok psf' ->
  forall k : string,
    PSF3D.meta psf' !! k
    = if bool_decide (k = "LO_THRES"%string \/ k = "HI_THRES"%string)
      then PSF3D.meta psf !! k else None.
Proof.
  unfold PSF3D.to_hdulist, PSF3D.energy_thresh_lo, PSF3D.energy_thresh_hi,
    getitem.
  intros Hw Hr k.
  destruct (PSF3D.meta psf !! "LO_THRES"%string) as [lo|] eqn:Elo;
    [|discriminate].
  destruct (PSF3D.meta psf !! "HI_THRES"%string) as [hi|] eqn:Ehi;
    [|discriminate].
  rewrite !bind_Ok in Hw. injection Hw as <-.
  unfold PSF3D.from_table in Hr. cbn [PSF3D.header] in Hr.
  apply bind_inv in Hr as (e' & _ & Hr).
  apply bind_inv in Hr as (o' & _ & Hr).
  apply bind_inv in Hr as (r' & _ & Hr).
  apply bind_inv in Hr as (row & _ & Hr).
  apply PSF3D_init_inv in Hr as (_ & _ & ->). cbn [PSF3D.meta].
  change (default ∅ (Some ?x)) with x.
  destruct (decide (k = "HI_THRES"%string)) as [->|Hhi].
  { rewrite lookup_insert_eq.
    rewrite bool_decide_eq_true_2 by (right; reflexivity). congruence. }
  rewrite lookup_insert_ne by congruence.
  destruct (decide (k = "LO_THRES"%string)) as [->|Hlo].
  { rewrite lookup_insert_eq.
    rewrite bool_decide_eq_true_2 by (left; reflexivity). congruence. }
  rewrite lookup_insert_ne by congruence.
  rewrite lookup_empty.
  rewrite bool_decide_eq_false_2 by (intros [?|?]; congruence).
  reflexivity.
Qed.
End Meta.

Lemma fits_roundtrip_keeps_only_thresholds_witness :
  exists tbl psf',
    PSF3D.to_hdulist (ex_psf3d ex_meta_obs) = Ok tbl /\
    @PSF3D.from_table lin_axis_coord tbl = Ok psf' /\
    PSF3D.meta (ex_psf3d ex_meta_obs) !! "OBS_ID"%string = Some 23523 /\
    PSF3D.meta psf' !! "OBS_ID"%string = None /\
    PSF3D.meta psf' !! "LO_THRES"%string = Some (1 # 10).
Proof.
  eexists. eexists. split; [reflexivity|]. split; [reflexivity|].
  split; [reflexivity|].
  split.
  - apply (@fits_roundtrip_keeps_only_thresholds lin_axis_coord
             (ex_psf3d ex_meta_obs) _ _ eq_refl eq_refl "OBS_ID"%string).
  - apply (@fits_roundtrip_keeps_only_thresholds lin_axis_coord
             (ex_psf3d ex_meta_obs) _ _ eq_refl eq_refl "LO_THRES"%string).
Defined.

(** ** Conversions between the PSF classes *)

Lemma ex_broadcasts : @broadcasts ex_broadcast_interpolator.
Proof.
  intros axes data. split; intros; split; try reflexivity.
  - unfold array_wf. cbn [_interpolate ex_broadcast_interpolator flat shape].
    apply repeat_length.
  - unfold array_wf. cbn [_interpolate ex_broadcast_interpolator flat shape].
    apply repeat_length.
Qed.

Lemma squeeze_pair (a b c : nat) :
  rev (List.filter (fun n => negb (Nat.eqb n 1)) [a; b; c]) = [c; a]
  <-> (b = 1 /\ c <> 1 /\ a <> 1)%nat.
Proof.
  cbn [List.filter].
  destruct (Nat.eqb_spec a 1), (Nat.eqb_spec b 1), (Nat.eqb_spec c 1);
    cbn [negb rev app]; split;
    try (intros E; apply (f_equal (@length nat)) in E; cbn in E; lia);
    try (intros (? & ? & ?); congruence);
    try (intros E; injection E; intros; subst; lia);
    try (intros _; repeat split; assumption).
  all: try (intros (? & ? & ?); reflexivity).
Qed.

Lemma squeeze_single (a b c : nat) :
  List.filter (fun n => negb (Nat.eqb n 1)) [a; b; c] = [a]
  <-> (a <> 1 /\ b = 1 /\ c = 1)%nat.
Proof.
  cbn [List.filter].
  destruct (Nat.eqb_spec a 1), (Nat.eqb_spec b 1), (Nat.eqb_spec c 1);
    cbn [negb]; split;
    try (intros E; apply (f_equal (@length nat)) in E; cbn in E; lia);
    try (intros (? & ? & ?); congruence);
    try (intros E; injection E; intros; subst; lia);
    try (intros _; repeat split; assumption).
  all: try (intros (? & ? & ?); reflexivity).
Qed.

Section Conversions.
Context `{AxisCoord} `{Interpolator}.

(** X11: for a [PSF3D] made by the constructor and an interpolator that
    returns arrays of the broadcast shape, [to_energy_dependent_table_psf]
    (on the rad axis of the PSF, or on at least two rad edges) succeeds
    exactly when [theta] is a single offset and neither the energy axis
    nor the rad axis has exactly one bin; in every other case the squeezed
    array does not have the two axes (energy, rad) and the construction
    raises [ValueError].  On success the PSF has the energy
    axis of the [PSF3D], the rad axis that was asked for and a data array of
    shape (energy bins, rad bins). *)
Theorem to_energy_dependent_table_psf_accepts_iff
    (e o r : MapAxis) (d : ndarray) (m : option (gmap string Q))
    (psf : PSF3D.t) (theta : list Q) (rad exposure : option (list Q)) :
  broadcasts ->
  PSF3D.init e o r d m = Ok psf ->
  (forall x, rad = Some x -> (2 <= length x)%nat) ->
  let rad_axis :=
    match rad with Some x => from_edges x "rad" Lin | None => r end in
  let accepted :=
    (length theta = 1 /\ nbin e <> 1 /\ nbin rad_axis <> 1)%nat in
  (accepted ->
   exists table_psf,
     PSF3D.to_energy_dependent_table_psf psf theta rad exposure
     = Ok table_psf /\
     EnergyDependentTablePSF.energy_axis_true table_psf = e /\
     EnergyDependentTablePSF.rad_axis table_psf = rad_axis /\
     shape (EnergyDependentTablePSF.data table_psf)
     = [nbin e; nbin rad_axis]) /\
  (~ accepted ->
   PSF3D.to_energy_dependent_table_psf psf theta rad exposure
   = Raise ValueError).
Proof.
  intros Hb Hi _ rad_axis accepted.
  apply PSF3D_init_inv in Hi as (Hn & _ & ->).
  injection Hn as Hne _ Hnr.
  unfold PSF3D.to_energy_dependent_table_psf, PSF3D.evaluate.
  cbn [PSF3D.energy_axis_true PSF3D.offset_axis PSF3D.rad_axis PSF3D.data].
  fold rad_axis. change (default ?x (Some ?y)) with y.
  change (default ?x None) with x.
  set (a := _interpolate [e; o; r] d [center e; theta; center rad_axis]).
  assert (Hs : shape a = [nbin rad_axis; length theta; nbin e])
    by apply (Hb [e; o; r] d).
  assert (Hnames : map name [e; rad_axis]
                   = ["energy_true"; "rad"]%string).
  { cbn [map]. rewrite Hne. f_equal. f_equal. unfold rad_axis.
    destruct rad; [reflexivity | exact Hnr]. }
  unfold EnergyDependentTablePSF.init.
  rewrite (proj2 (assert_names_Ok _ _) Hnames), bind_Ok.
  clearbody a.
  assert (Hsq : shape (squeeze a)
                = List.filter (fun n => negb (Nat.eqb n 1))
                    [nbin rad_axis; length theta; nbin e])
    by (unfold squeeze; cbn [shape]; rewrite Hs; reflexivity).
  rewrite transpose_shape, Hsq.
  split.
  - intros Hacc. apply squeeze_pair in Hacc.
    rewrite (proj2 (check_shape_Ok _ _)) by exact Hacc. rewrite bind_Ok.
    eexists. split; [reflexivity|].
    cbn [EnergyDependentTablePSF.energy_axis_true
         EnergyDependentTablePSF.rad_axis EnergyDependentTablePSF.data].
    repeat split. rewrite transpose_shape, Hsq. exact Hacc.
  - intros Hnot. rewrite check_shape_Raise; [reflexivity|].
    intros E. apply Hnot. apply squeeze_pair. exact E.
Qed.

(** X12: for a [PSF3D] made by the constructor and an interpolator that
    returns arrays of the broadcast shape, [to_table_psf] succeeds exactly
    when one energy and one offset are given and the rad axis does not have
    exactly one bin, and raises [ValueError] in every other case; on
    success the table PSF has the rad axis of the [PSF3D] and one value per
    rad bin. *)
Theorem to_table_psf_accepts_iff
    (e o r : MapAxis) (d : ndarray) (m : option (gmap string Q))
    (psf : PSF3D.t) (energy theta : list Q) :
  broadcasts ->
  PSF3D.init e o r d m = Ok psf ->
  let accepted := (nbin r <> 1 /\ length theta = 1 /\ length energy = 1)%nat in
  (accepted ->
   exists table_psf,
     PSF3D.to_table_psf psf energy theta = Ok table_psf /\
     TablePSF.rad_axis table_psf = r /\
     length (TablePSF.data table_psf) = nbin r) /\
  (~ accepted -> PSF3D.to_table_psf psf energy theta = Raise ValueError).
Proof.
  intros Hb Hi accepted.
  apply PSF3D_init_inv in Hi as (Hn & _ & ->).
  injection Hn as _ _ Hnr.
  unfold PSF3D.to_table_psf, PSF3D.evaluate.
  cbn [PSF3D.energy_axis_true PSF3D.offset_axis PSF3D.rad_axis PSF3D.data].
  change (default ?x (Some ?y)) with y. change (default ?x None) with x.
  set (a := _interpolate [e; o; r] d [energy; theta; center r]).
  destruct (proj1 (Hb [e; o; r] d) energy theta (center r)) as (Hs & Hwf).
  fold a in Hs, Hwf. fold (nbin r) in Hs. clearbody a.
  unfold TablePSF.init_array.
  rewrite (proj2 (assert_name_Ok _ _) Hnr), bind_Ok.
  cbn [squeeze shape flat]. rewrite Hs.
  split.
  - intros Hacc. pose proof Hacc as (_ & Ht & He).
    apply squeeze_single in Hacc.
    rewrite (proj2 (check_shape_Ok _ _)) by exact Hacc. rewrite bind_Ok.
    eexists. split; [reflexivity|]. cbn [TablePSF.rad_axis TablePSF.data].
    split; [reflexivity|]. unfold array_wf in Hwf. rewrite Hwf, Hs, Ht, He.
    cbn [size_of fold_right]. lia.
  - intros Hnot. rewrite check_shape_Raise; [reflexivity|].
    intros E. apply Hnot. apply squeeze_single. exact E.
Qed.

(** X13: for an [EnergyDependentTablePSF] made by the constructor and an
    interpolator that returns arrays of the broadcast shape,
    [table_psf_at_energy] raises [IndexError] on an empty energy array;
    on every other energy array it returns a table PSF over the rad axis of
    the PSF whose values are the row of the first energy alone. *)
Theorem table_psf_at_energy_first_row
    (e r : MapAxis) (x : option (list Q)) (d : ndarray)
    (psf : EnergyDependentTablePSF.t) (energy : list Q) :
  broadcasts ->
  EnergyDependentTablePSF.init e r x d = Ok psf ->
  (energy = [] ->
   EnergyDependentTablePSF.table_psf_at_energy psf energy
   = Raise IndexError) /\
  (energy <> [] ->
   exists table_psf,
     EnergyDependentTablePSF.table_psf_at_energy psf energy = Ok table_psf /\
     TablePSF.rad_axis table_psf = r /\
     length (TablePSF.data table_psf) = nbin r /\
     TablePSF.data table_psf
     = firstn (nbin r)
         (flat (EnergyDependentTablePSF.evaluate psf (Some energy) None))).
Proof.
  intros Hb Hi.
  apply EnergyDependentTablePSF_init_inv in Hi as (Hn & _ & ->).
  injection Hn as _ Hnr.
  unfold EnergyDependentTablePSF.table_psf_at_energy,
    EnergyDependentTablePSF.evaluate.
  cbn [EnergyDependentTablePSF.energy_axis_true
       EnergyDependentTablePSF.rad_axis EnergyDependentTablePSF.data].
  change (default ?x (Some ?y)) with y. change (default ?x None) with x.
  set (a := _interpolate [e; r] d [energy; center r]).
  destruct (proj2 (Hb [e; r] d) energy (center r)) as (Hs & Hwf).
  fold a in Hs, Hwf. fold (nbin r) in Hs.
  unfold first_row. rewrite Hs. split.
  - intros ->. reflexivity.
  - intros Hne. destruct energy as [|e0 energy]; [contradiction|].
    cbn [length]. rewrite bind_Ok. unfold TablePSF.init_array.
    rewrite (proj2 (assert_name_Ok _ _) Hnr), bind_Ok.
    cbn [shape flat].
    rewrite (proj2 (check_shape_Ok _ _)) by reflexivity. rewrite bind_Ok.
    eexists. split; [reflexivity|]. cbn [TablePSF.rad_axis TablePSF.data].
    split; [reflexivity|].
    assert (Hk : size_of [nbin r] = nbin r) by (cbn; lia).
    rewrite Hk. split; [|reflexivity].
    rewrite length_firstn. unfold array_wf in Hwf. rewrite Hwf, Hs.
    cbn [size_of fold_right length]. lia.
Qed.
End Conversions.

Lemma to_energy_dependent_table_psf_accepts_iff_witness :
  (exists table_psf,
     @PSF3D.to_energy_dependent_table_psf lin_axis_coord
       ex_broadcast_interpolator (ex_psf3d ex_meta) [0] (Some [0; 1; 2]) None
     = Ok table_psf /\
     shape (EnergyDependentTablePSF.data table_psf) = [2; 2]%nat) /\
  @PSF3D.to_energy_dependent_table_psf lin_axis_coord
    ex_broadcast_interpolator (ex_psf3d ex_meta) [0; 1 # 2] None None
  = Raise ValueError /\
  @PSF3D.to_energy_dependent_table_psf lin_axis_coord
    ex_broadcast_interpolator
    (PSF3D.mk (ex_axis "energy_true" 1) ex_offset_axis ex_rad_axis
       (mk_ndarray [1; 1; 3]%nat [1; 2; 3]) ∅) [0] None None
  = Raise ValueError.
Proof.
  split; [|split].
  - destruct (proj1 (@to_energy_dependent_table_psf_accepts_iff
                       lin_axis_coord ex_broadcast_interpolator
                       ex_energy_axis ex_offset_axis ex_rad_axis ex_cube
                       (Some ex_meta) (ex_psf3d ex_meta) [0]
                       (Some [0; 1; 2]) None ex_broadcasts eq_refl
                       ltac:(intros x [= <-]; cbn; lia)))
      as (table_psf & Hrun & _ & _ & Hs).
    + repeat split; vm_compute; discriminate.
    + exists table_psf. split; assumption.
  - apply (proj2 (@to_energy_dependent_table_psf_accepts_iff
                    lin_axis_coord ex_broadcast_interpolator
                    ex_energy_axis ex_offset_axis ex_rad_axis ex_cube
                    (Some ex_meta) (ex_psf3d ex_meta) [0; 1 # 2] None None
                    ex_broadcasts eq_refl ltac:(discriminate))).
    intros (Ht & _). discriminate Ht.
  - apply (proj2 (@to_energy_dependent_table_psf_accepts_iff
                    lin_axis_coord ex_broadcast_interpolator
                    (ex_axis "energy_true" 1) ex_offset_axis ex_rad_axis
                    (mk_ndarray [1; 1; 3]%nat [1; 2; 3]) None
                    (PSF3D.mk (ex_axis "energy_true" 1) ex_offset_axis
                       ex_rad_axis (mk_ndarray [1; 1; 3]%nat [1; 2; 3]) ∅)
                    [0] None None ex_broadcasts eq_refl
                    ltac:(discriminate))).
    intros (_ & He & _). apply He. reflexivity.
Defined.

Lemma to_table_psf_accepts_iff_witness :
  (exists table_psf,
     @PSF3D.to_table_psf ex_broadcast_interpolator
       (ex_psf3d ex_meta) [1] [0] = Ok table_psf /\
     length (TablePSF.data table_psf) = 3%nat) /\
  @PSF3D.to_table_psf ex_broadcast_interpolator
    (ex_psf3d ex_meta) [1; 2] [0] = Raise ValueError.
Proof.
  split.
  - destruct (proj1 (@to_table_psf_accepts_iff ex_broadcast_interpolator
                       ex_energy_axis ex_offset_axis ex_rad_axis ex_cube
                       (Some ex_meta) (ex_psf3d ex_meta) [1] [0]
                       ex_broadcasts eq_refl))
      as (table_psf & Hrun & _ & Hl).
    + repeat split; vm_compute; discriminate.
    + exists table_psf. split; assumption.
  - apply (proj2 (@to_table_psf_accepts_iff ex_broadcast_interpolator
                    ex_energy_axis ex_offset_axis ex_rad_axis ex_cube
                    (Some ex_meta) (ex_psf3d ex_meta) [1; 2] [0]
                    ex_broadcasts eq_refl)).
    intros (_ & _ & He). discriminate He.
Defined.

Lemma table_psf_at_energy_first_row_witness :
  @EnergyDependentTablePSF.table_psf_at_energy ex_broadcast_interpolator
    ex_edpsf [] = Raise IndexError /\
  exists table_psf,
    @EnergyDependentTablePSF.table_psf_at_energy ex_broadcast_interpolator
      ex_edpsf [1; 2] = Ok table_psf /\
    length (TablePSF.data table_psf) = 3%nat.
Proof.
  split.
  - apply (proj1 (@table_psf_at_energy_first_row ex_broadcast_interpolator
                    ex_energy_axis ex_rad_axis (Some [1; 1]) ex_table2d
                    ex_edpsf [] ex_broadcasts eq_refl)).
    reflexivity.
  - destruct (proj2 (@table_psf_at_energy_first_row
                       ex_broadcast_interpolator
                       ex_energy_axis ex_rad_axis (Some [1; 1]) ex_table2d
                       ex_edpsf [1; 2] ex_broadcasts eq_refl))
      as (table_psf & Hrun & _ & Hl & _); [discriminate|].
    exists table_psf. split; assumption.
Defined.

(** ** The field-of-view background maker *)

Module FoVBackgroundMakerFacts.
Import FoVBackgroundMaker.

Lemma background_model_find (dataset : Dataset) :
  background_model dataset
  = find_model (bkg_name dataset) (default [] (models dataset)).
Proof.
  unfold background_model, models_getitem, find_model.
  destruct (models dataset) as [l|]; [|reflexivity].
  change (default [] (Some l)) with l. destruct (find _ l); reflexivity.
Qed.

Lemma find_model_app_new (key : string) (l : list Model) (m : Model) :
  find_model key l = None -> model_name m = key ->
  find_model key (l ++ [m]) = Some m.
Proof.
  unfold find_model. intros Hn Hm. induction l as [|x l IH]; cbn.
  - rewrite Hm, String.eqb_refl. reflexivity.
  - cbn in Hn. destruct (String.eqb (model_name x) key); [discriminate|].
    apply IH. exact Hn.
Qed.

Section Prepared.
Context `{DatasetOps}.

Lemma prepared_background_model (self : t) (dataset : Dataset) :
  exists m, background_model (prepared self dataset) = Some m.
Proof.
  unfold prepared.
  set (ds1 := match exclusion_mask self with
              | Some excl =>
                  with_mask_fit dataset (Some (interp_to_geom excl dataset))
              | None => dataset
              end).
  destruct (background_model ds1) as [m|] eqn:E; [eauto|].
  unfold make_default_fov_background_model.
  destruct (create_spectral_model (spectral_model_tag self)) as [n o].
  rewrite background_model_find in E.
  eexists. rewrite background_model_find.
  destruct (models ds1) as [l|] eqn:El.
  - change (default [] (Some l)) with l in E.
    unfold with_models, bkg_name. cbn [models ds_name].
    change (default [] (Some ?x)) with x.
    apply find_model_app_new; [exact E | reflexivity].
  - unfold with_models, bkg_name, find_model. cbn [models ds_name].
    change (default [] (Some ?x)) with x.
    cbn [find model_name].
    rewrite String.eqb_refl. reflexivity.
Qed.

Lemma prepared_unchanged (self : t) (dataset : Dataset) (m : Model) :
  background_model dataset = Some m ->
  models (prepared self dataset) = models dataset.
Proof.
  intros Hm. unfold prepared.
  destruct (exclusion_mask self) as [excl|].
  - replace (background_model
               (with_mask_fit dataset (Some (interp_to_geom excl dataset))))
      with (background_model dataset) by reflexivity.
    rewrite Hm. reflexivity.
  - rewrite Hm. reflexivity.
Qed.

Lemma prepared_name (self : t) (dataset : Dataset) :
  bkg_name (prepared self dataset) = bkg_name dataset.
Proof.
  unfold prepared, make_default_fov_background_model.
  destruct (create_spectral_model (spectral_model_tag self)) as [n o].
  destruct (exclusion_mask self) as [excl|];
    match goal with |- context [background_model ?d] =>
      destruct (background_model d); [reflexivity|];
      destruct (models d); reflexivity
    end.
Qed.

Lemma prepared_keeps_background (self : t) (dataset : Dataset) (m : Model) :
  background_model dataset = Some m ->
  background_model (prepared self dataset) = Some m.
Proof.
  intros Hm. rewrite background_model_find, prepared_name.
  rewrite (prepared_unchanged self dataset m Hm).
  rewrite <- background_model_find. exact Hm.
Qed.

Lemma run_unfold (self : t) (dataset : Dataset) (log : list string) :
  run self dataset log
  = ((if String.eqb (method self) "fit"
      then Ok (_fit_bkg (prepared self dataset) log)
      else _scale_bkg (prepared self dataset) log)
     ≫= fun '(ds, lg) => Ok (with_mask_fit ds (mask_fit dataset), lg)).
Proof. reflexivity. Qed.
End Prepared.

Lemma find_model_set_norm (key : string) (v : npfloat) (l : list Model)
    (m : Model) :
  find_model key l = Some m ->
  find_model key (set_norm_value key v l)
  = Some {| model_name := model_name m;
            norm := {| value := v; frozen := frozen (norm m) |};
            other_parameters := other_parameters m |}.
Proof.
  unfold find_model. induction l as [|x l IH]; [discriminate|].
  cbn [find set_norm_value].
  destruct (String.eqb (model_name x) key) eqn:E.
  - intros [= <-]. cbn [find model_name]. rewrite E. reflexivity.
  - intros Hf. cbn [find]. rewrite E. apply IH. exact Hf.
Qed.

Lemma masked_sum_total (data : list npfloat) (msk : list bool) :
  masked_sum data msk = masked_total data msk.
Proof.
  unfold masked_sum. revert msk.
  induction data as [|d data IH]; intros [|m msk]; try reflexivity.
  cbn [combine List.filter snd masked_total]. destruct m.
  - cbn [map fst np_sum fold_right]. f_equal. apply IH.
  - apply IH.
Qed.

Lemma masked_total_all (qs : list Q) :
  masked_total (map Finite qs) (map (fun _ => true) qs) = Finite (Qsum qs).
Proof.
  induction qs as [|q qs IH]; [reflexivity|].
  cbn [map masked_total]. rewrite IH. reflexivity.
Qed.

Lemma np_le_zero_nonpos (x : npfloat) : np_le_zero x = true <-> np_nonpos x.
Proof.
  destruct x as [q| | |]; cbn [np_le_zero np_nonpos];
    [apply Qle_bool_iff | | |]; split; intros; try discriminate;
    try contradiction; auto.
Qed.

Lemma np_le_zero_other (x : npfloat) :
  np_le_zero x = false <-> np_pos x \/ x = NaN.
Proof.
  destruct x as [q| | |]; cbn [np_le_zero np_pos].
  - rewrite Qle_bool_false. split; [auto|]. intros [Hq|Hq]; [exact Hq|].
    discriminate.
  - split; auto.
  - split; [discriminate|]. intros [[]|Hq]. discriminate.
  - split; auto.
Qed.

Lemma np_nonpos_other (x : npfloat) :
  np_nonpos x -> np_pos x \/ x = NaN -> False.
Proof.
  intros Hn Ho. apply np_le_zero_nonpos in Hn. apply np_le_zero_other in Ho.
  congruence.
Qed.

Section Scale.
Context `{DatasetOps}.

End Scale.

Lemma zip_with_rest_length {A} (f : Par -> A -> Par) (ps : list Par)
    (xs : list A) :
  length (zip_with_rest f ps xs) = length ps.
Proof.
  revert xs. induction ps as [|p ps IH]; intros [|x xs]; cbn; auto.
Qed.

Lemma zip_set_frozen_flags (ps : list Par) (flags : list bool) :
  length flags = length ps ->
  map frozen (zip_with_rest set_frozen ps flags) = flags.
Proof.
  revert flags. induction ps as [|p ps IH]; intros [|b flags] Hl;
    try discriminate; [reflexivity|].
  cbn. f_equal. apply IH. cbn in Hl. lia.
Qed.

Lemma zip_set_frozen_values (ps : list Par) (flags : list bool) :
  map value (zip_with_rest set_frozen ps flags) = map value ps.
Proof.
  revert flags. induction ps as [|p ps IH]; intros [|b flags];
    try reflexivity.
  cbn. f_equal. apply IH.
Qed.

Lemma model_with_parameters_parameters (m : Model) (ps : list Par) :
  ps <> [] -> model_parameters (model_with_parameters m ps) = ps.
Proof. destruct ps; [congruence | reflexivity]. Qed.

Lemma with_parameters_parameters (l : list Model) (ps : list Par) :
  length ps = length (parameters l) ->
  parameters (with_parameters l ps) = ps.
Proof.
  revert ps. induction l as [|m l IH]; intros ps Hl.
  - destruct ps; [reflexivity | discriminate].
  - cbn [with_parameters parameters flat_map] in *.
    rewrite length_app in Hl.
    assert (Hk : length (model_parameters m) = S (length (other_parameters m)))
      by reflexivity.
    rewrite model_with_parameters_parameters.
    + fold (parameters (with_parameters l
              (skipn (length (model_parameters m)) ps))).
      rewrite IH.
      * apply firstn_skipn.
      * rewrite length_skipn. fold (parameters l).
        fold (parameters l) in Hl. lia.
    + intros Hnil. apply (f_equal length) in Hnil.
      rewrite length_firstn in Hnil. cbn [length] in Hnil. lia.
Qed.

Lemma freeze_model_parameters (m : Model) :
  model_parameters
    (model_with_parameters m (map freeze (model_parameters m)))
  = map freeze (model_parameters m).
Proof. reflexivity. Qed.

Lemma freeze_others_length (key : string) (l : list Model) :
  length (parameters (freeze_others key l)) = length (parameters l).
Proof.
  induction l as [|m l IH]; [reflexivity|].
  cbn [freeze_others]. destruct (String.eqb (model_name m) key).
  - cbn [parameters flat_map]. rewrite !length_app. f_equal.
    clear. induction l as [|m' l IH]; [reflexivity|].
    cbn [map flat_map]. rewrite !length_app, freeze_model_parameters,
      length_map. f_equal. exact IH.
  - cbn [parameters flat_map]. rewrite !length_app, freeze_model_parameters,
      length_map. f_equal. exact IH.
Qed.

Section Fit.
Context `{DatasetOps}.

(** C9 (amended): [FoVBackgroundMaker.run] with method "fit" never raises
    and returns the dataset with its fit mask restored.  When the fit does
    not converge a warning is logged (nothing is logged otherwise).  In
    both cases the frozen flag of every parameter is restored to its state
    before the fit, and every parameter keeps the value the optimiser left
    in it: the values are not restored. *)
Theorem fit_bkg_restores_frozen_flags (self : t) (dataset : Dataset)
    (log : list string) :
  method self = "fit"%string ->
  let ds0 := prepared self dataset in
  let pars0 := parameters (default [] (models ds0)) in
  let pars1 := parameters (default [] (models (fit_input ds0))) in
  exists ds' log',
    run self dataset log = Ok (ds', log') /\
    mask_fit ds' = mask_fit dataset /\
    map frozen (parameters (default [] (models ds'))) = map frozen pars0 /\
    map value (parameters (default [] (models ds')))
      = map value
          (zip_with_rest set_fitted pars1 (fst (fit_run (fit_input ds0)))) /\
    (snd (fit_run (fit_input ds0)) = false ->
       exists warning, log' = log ++ [warning]) /\
    (snd (fit_run (fit_input ds0)) = true -> log' = log).
Proof.
  intros Hm ds0 pars0 pars1. rewrite run_unfold, Hm. fold ds0.
  change (String.eqb "fit" "fit") with true. cbv iota. rewrite bind_Ok.
  unfold _fit_bkg. fold (fit_input ds0).
  set (l := default [] (models ds0)) in *.
  set (l1 := freeze_others (bkg_name ds0) l).
  assert (Epars1 : pars1 = parameters l1) by reflexivity.
  destruct (fit_run (fit_input ds0)) as [values success] eqn:Efit.
  cbn [fst snd].
  set (ps2 := zip_with_rest set_fitted (parameters l1) values).
  set (l2 := with_parameters l1 ps2).
  assert (Hl2 : parameters l2 = ps2).
  { apply with_parameters_parameters. unfold ps2.
    apply zip_with_rest_length. }
  set (ps3 := zip_with_rest set_frozen (parameters l2)
                (map frozen (parameters l))).
  assert (Hl3 : parameters (with_parameters l2 ps3) = ps3).
  { apply with_parameters_parameters. unfold ps3.
    apply zip_with_rest_length. }
  eexists. eexists. split; [reflexivity|]. split; [reflexivity|].
  cbn [with_mask_fit with_models models].
  change (default [] (Some ?x)) with x. rewrite Hl3. split; [|split].
  - unfold ps3. apply zip_set_frozen_flags.
    rewrite length_map, Hl2. unfold ps2.
    rewrite zip_with_rest_length. unfold l1.
    symmetry. apply freeze_others_length.
  - unfold ps3. rewrite zip_set_frozen_values, Hl2, Epars1. reflexivity.
  - split; intros Hs; subst success; [eauto | reflexivity].
Qed.
End Fit.

Example init_scale :
  FoVBackgroundMaker.init "scale" None "pl-norm" = Ok (ex_maker "scale").
Proof. reflexivity. Qed.

Example init_invalid_method :
  FoVBackgroundMaker.init "norm" None "pl-norm" = Raise ValueError.
Proof. reflexivity. Qed.


Example scale_bkg_positive :
  exists ds' m,
    @FoVBackgroundMaker.run ex_dataset_ops (ex_maker "scale")
      (ex_dataset [2; 4; 6]) [] = Ok (ds', []) /\
    FoVBackgroundMaker.background_model ds' = Some m /\
    npfloat_eq (FoVBackgroundMaker.value (FoVBackgroundMaker.norm m))
      (Finite 4).
Proof.
  eexists. eexists. split; [vm_compute; reflexivity|].
  split; [vm_compute; reflexivity|]. reflexivity.
Qed.


Lemma fit_bkg_restores_frozen_flags_witness :
  exists ds' warning,
    @FoVBackgroundMaker.run ex_dataset_ops (ex_maker "fit")
      (ex_dataset [2; 4; 6]) [] = Ok (ds', [warning]) /\
    map FoVBackgroundMaker.frozen
      (FoVBackgroundMaker.parameters
         (default [] (FoVBackgroundMaker.models ds')))
    = [false; true; true].
Proof.
  destruct (@fit_bkg_restores_frozen_flags ex_dataset_ops
              (ex_maker "fit") (ex_dataset [2; 4; 6]) [] eq_refl)
    as (ds' & log' & Hrun & _ & Hfrozen & _ & Hwarn & _).
  destruct (Hwarn eq_refl) as (w & Hw).
  exists ds', w. split; [rewrite Hrun, Hw; reflexivity | exact Hfrozen].
Defined.

(** C9 as stated fails: after a fit that did not converge the norm of the
    background model keeps the value of the optimiser, it is not restored to
    its value before the fit. *)
Lemma fit_bkg_keeps_fitted_values :
  exists ds' log' m0 m,
    @FoVBackgroundMaker.run ex_dataset_ops (ex_maker "fit")
      (ex_dataset [2; 4; 6]) [] = Ok (ds', log') /\
    snd (@FoVBackgroundMaker.fit_run ex_dataset_ops
           (@fit_input
              (@prepared ex_dataset_ops (ex_maker "fit")
                 (ex_dataset [2; 4; 6])))) = false /\
    FoVBackgroundMaker.background_model
      (@prepared ex_dataset_ops (ex_maker "fit") (ex_dataset [2; 4; 6]))
    = Some m0 /\
    FoVBackgroundMaker.background_model ds' = Some m /\
    npfloat_eq (FoVBackgroundMaker.value (FoVBackgroundMaker.norm m0))
      (Finite 1) /\
    npfloat_eq (FoVBackgroundMaker.value (FoVBackgroundMaker.norm m))
      (Finite 2) /\
    ~ npfloat_eq (FoVBackgroundMaker.value (FoVBackgroundMaker.norm m))
        (FoVBackgroundMaker.value (FoVBackgroundMaker.norm m0)).
Proof.
  eexists. eexists. eexists. eexists.
  split; [vm_compute; reflexivity|]. split; [reflexivity|].
  split; [vm_compute; reflexivity|]. split; [vm_compute; reflexivity|].
  split; [reflexivity|]. split; [reflexivity|]. vm_compute. discriminate.
Qed.

(** ** Further properties of the maker *)

(** X14: [FoVBackgroundMaker.__init__] accepts exactly the methods "fit" and
    "scale" together with a spectral model tag that contains "norm"; every
    other combination raises [ValueError]. *)
Theorem init_accepts_iff (method : string) (excl : option (list bool))
    (tag : string) :
  ((method = "fit"%string \/ method = "scale"%string) /\
   (exists k, substring k 4 tag = "norm"%string) ->
   init method excl tag = Ok (mk method excl tag)) /\
  (~ ((method = "fit"%string \/ method = "scale"%string) /\
      (exists k, substring k 4 tag = "norm"%string)) ->
   init method excl tag = Raise ValueError).
Proof.
  assert (Hm : (String.eqb method "fit" || String.eqb method "scale") = true
               <-> (method = "fit"%string \/ method = "scale"%string)).
  { rewrite orb_true_iff, !String.eqb_eq. reflexivity. }
  assert (Ht : (exists k, substring k 4 tag = "norm"%string)
               <-> index 0 "norm" tag <> None).
  { split.
    - intros [k Hk] Hnone.
      apply (index_correct3 0 k "norm" tag Hnone); [discriminate | lia |].
      exact Hk.
    - intros Hsome. destruct (index 0 "norm" tag) as [k|] eqn:E;
        [|congruence].
      exists k. apply (index_correct1 0 k "norm" tag E). }
  unfold init. split.
  - intros [Hmeth Htag]. apply Hm in Hmeth. rewrite Hmeth.
    apply Ht in Htag. destruct (index 0 "norm" tag); [reflexivity|congruence].
  - intros Hnot.
    destruct (String.eqb method "fit" || String.eqb method "scale") eqn:E;
      [|reflexivity].
    destruct (index 0 "norm" tag) as [k|] eqn:E2; [|reflexivity].
    exfalso. apply Hnot. split; [apply Hm; reflexivity|].
    apply Ht. discriminate.
Qed.

Lemma init_accepts_iff_witness :
  init "fit" None "pl-norm" = Ok (mk "fit" None "pl-norm") /\
  init "scale" None "pl" = Raise ValueError /\
  init "Fit" None "pl-norm" = Raise ValueError.
Proof.
  split; [|split].
  - apply (proj1 (init_accepts_iff "fit" None "pl-norm")).
    split; [left; reflexivity | exists 3%nat; reflexivity].
  - apply (proj2 (init_accepts_iff "scale" None "pl")).
    intros [_ [k Hk]]. destruct k as [|[|[|k]]]; discriminate.
  - apply (proj2 (init_accepts_iff "Fit" None "pl-norm")).
    intros [[Hm|Hm] _]; discriminate.
Defined.

Section Default.
Context `{DatasetOps}.

(** X15: on a dataset without a background model,
    [make_default_fov_background_model] keeps the name, the counts, the
    fit mask and all models of the dataset, in order, and appends one
    model named "<dataset.name>-bkg" with the parameters of the default
    spectral model; this model is then the background model. *)
Theorem make_default_appends_background (self : t) (dataset : Dataset) :
  background_model dataset = None ->
  let ds' := make_default_fov_background_model self dataset in
  ds_name ds' = ds_name dataset /\
  counts ds' = counts dataset /\
  mask_fit ds' = mask_fit dataset /\
  exists bkg,
    models ds' = Some (default [] (models dataset) ++ [bkg]) /\
    model_name bkg = bkg_name dataset /\
    (norm bkg, other_parameters bkg)
      = create_spectral_model (spectral_model_tag self) /\
    background_model ds' = Some bkg.
Proof.
  intros Hnone. unfold make_default_fov_background_model.
  destruct (create_spectral_model (spectral_model_tag self)) as [n o].
  rewrite background_model_find in Hnone.
  destruct (models dataset) as [l|] eqn:El; cbv zeta;
    (split; [reflexivity|]; split; [reflexivity|]; split; [reflexivity|]);
    eexists; (split; [reflexivity|]); (split; [reflexivity|]);
    (split; [reflexivity|]); rewrite background_model_find;
    unfold with_models, bkg_name; cbn [models ds_name];
    change (default [] (Some ?x)) with x.
  - change (default [] (Some l)) with l in Hnone.
    apply find_model_app_new; [exact Hnone | reflexivity].
  - unfold find_model. cbn [app find model_name].
    rewrite String.eqb_refl. reflexivity.
Qed.
End Default.

Lemma set_norm_value_keeps (key : string) (v : npfloat) (l : list Model) :
  map model_name (set_norm_value key v l) = map model_name l /\
  map other_parameters (set_norm_value key v l) = map other_parameters l /\
  map (fun m => frozen (norm m)) (set_norm_value key v l)
  = map (fun m => frozen (norm m)) l /\
  (forall i m, l !! i = Some m -> model_name m <> key ->
               set_norm_value key v l !! i = Some m).
Proof.
  induction l as [|x l (IH1 & IH2 & IH3 & IH4)].
  - repeat split; intros; discriminate.
  - cbn [set_norm_value]. destruct (String.eqb_spec (model_name x) key) as [E|E].
    + repeat split. intros [|i] m Hi Hne; [|exact Hi].
      cbn in Hi. congruence.
    + cbn [map]. rewrite IH1, IH2, IH3. repeat split.
      intros [|i] m Hi Hne; [exact Hi|]. apply IH4; assumption.
Qed.

Section Invariants.
Context `{DatasetOps}.

Lemma prepared_fields (self : t) (dataset : Dataset) :
  ds_name (prepared self dataset) = ds_name dataset /\
  counts (prepared self dataset) = counts dataset.
Proof.
  unfold prepared, make_default_fov_background_model.
  destruct (create_spectral_model (spectral_model_tag self)) as [n o].
  destruct (exclusion_mask self) as [excl|];
    match goal with |- context [background_model ?d] =>
      destruct (background_model d); [split; reflexivity|];
      destruct (models d); split; reflexivity
    end.
Qed.

End Invariants.

Lemma zip_with_rest_app {A} (f : Par -> A -> Par) (a b : list Par)
    (xs : list A) :
  zip_with_rest f (a ++ b) xs
  = zip_with_rest f a xs ++ zip_with_rest f b (skipn (length a) xs).
Proof.
  revert xs. induction a as [|p a IH]; intros xs; [reflexivity|].
  destruct xs as [|x xs].
  - cbn. destruct b; reflexivity.
  - cbn. f_equal. apply IH.
Qed.

Lemma par_eta (p : Par) : {| value := value p; frozen := frozen p |} = p.
Proof. destruct p; reflexivity. Qed.

Lemma zip_set_fitted_frozen (ps : list Par) (vals : list npfloat) :
  zip_with_rest set_fitted (map freeze ps) vals = map freeze ps.
Proof.
  revert vals. induction ps as [|p ps IH]; intros [|v vals]; try reflexivity.
  cbn. f_equal. apply IH.
Qed.

Lemma zip_set_frozen_restore (ps : list Par) (rest : list bool) :
  zip_with_rest set_frozen (map freeze ps) (map frozen ps ++ rest) = ps.
Proof.
  induction ps as [|p ps IH]; [destruct rest; reflexivity|].
  cbn [map app zip_with_rest]. f_equal; [|exact IH].
  unfold set_frozen, freeze. cbn [value frozen]. apply par_eta.
Qed.

Lemma pipeline_cons (m : Model) (l : list Model) (vals : list npfloat)
    (flags : list bool) :
  pipeline (m :: l) vals flags
  = model_with_parameters m
      (zip_with_rest set_frozen
         (zip_with_rest set_fitted (model_parameters m) vals) flags)
    :: pipeline l (skipn (length (model_parameters m)) vals)
         (skipn (length (model_parameters m)) flags).
Proof.
  unfold pipeline. cbn [parameters flat_map with_parameters].
  fold (parameters l).
  rewrite !zip_with_rest_app, zip_with_rest_length.
  set (X := zip_with_rest set_frozen
              (zip_with_rest set_fitted (model_parameters m) vals) flags).
  assert (HX : length X = length (model_parameters m))
    by (unfold X; rewrite !zip_with_rest_length; reflexivity).
  rewrite <- HX. rewrite firstn_app, Nat.sub_diag, firstn_all.
  cbn [firstn]. rewrite app_nil_r.
  rewrite skipn_app, Nat.sub_diag, skipn_all. cbn [skipn app].
  rewrite HX. reflexivity.
Qed.

Lemma model_freeze_restore (m : Model) (vals : list npfloat)
    (rest : list bool) :
  model_with_parameters
    (model_with_parameters m (map freeze (model_parameters m)))
    (zip_with_rest set_frozen
       (zip_with_rest set_fitted
          (model_parameters
             (model_with_parameters m (map freeze (model_parameters m))))
          vals)
       (map frozen (model_parameters m) ++ rest))
  = m.
Proof.
  rewrite freeze_model_parameters, zip_set_fitted_frozen,
    zip_set_frozen_restore.
  destruct m. reflexivity.
Qed.

Lemma skipn_map_frozen (m : Model) (l : list Model) :
  skipn (length (model_parameters m)) (map frozen (parameters (m :: l)))
  = map frozen (parameters l).
Proof.
  cbn [parameters flat_map]. fold (parameters l).
  rewrite map_app, skipn_app, length_map, Nat.sub_diag, skipn_all2
    by (rewrite length_map; lia).
  reflexivity.
Qed.

Lemma pipeline_all_frozen (l : list Model) (vals : list npfloat) :
  pipeline
    (map (fun m => model_with_parameters m (map freeze (model_parameters m)))
         l)
    vals (map frozen (parameters l))
  = l.
Proof.
  revert vals. induction l as [|m l IH]; intros vals; [reflexivity|].
  cbn [map]. rewrite pipeline_cons.
  rewrite freeze_model_parameters at 2 3. rewrite length_map.
  rewrite skipn_map_frozen, IH. f_equal.
  cbn [parameters flat_map]. rewrite map_app.
  apply model_freeze_restore.
Qed.

Lemma pipeline_keeps_others (key : string) (l : list Model)
    (vals : list npfloat)
    (i : nat) (m : Model) :
  l !! i = Some m -> model_name m <> key ->
  pipeline (freeze_others key l) vals (map frozen (parameters l)) !! i
  = Some m.
Proof.
  revert vals i. induction l as [|x l IH]; intros vals i Hi Hne;
    [discriminate|].
  cbn [freeze_others]. destruct (String.eqb_spec (model_name x) key) as [E|E].
  - rewrite pipeline_cons, skipn_map_frozen, pipeline_all_frozen.
    destruct i as [|i]; [|exact Hi]. cbn in Hi. congruence.
  - rewrite pipeline_cons.
    rewrite freeze_model_parameters at 2 3. rewrite length_map.
    rewrite skipn_map_frozen.
    destruct i as [|i].
    + cbn in Hi. injection Hi as ->. cbn [lookup list_lookup].
      f_equal. cbn [parameters flat_map]. rewrite map_app.
      apply model_freeze_restore.
    + apply IH; assumption.
Qed.

Lemma with_parameters_names (l : list Model) (ps : list Par) :
  map model_name (with_parameters l ps) = map model_name l.
Proof.
  revert ps. induction l as [|m l IH]; intros ps; [reflexivity|].
  cbn [with_parameters map]. rewrite IH. f_equal.
  destruct (firstn _ ps); reflexivity.
Qed.

Lemma freeze_others_names (key : string) (l : list Model) :
  map model_name (freeze_others key l) = map model_name l.
Proof.
  induction l as [|m l IH]; [reflexivity|].
  cbn [freeze_others]. destruct (String.eqb (model_name m) key).
  - cbn [map]. f_equal. rewrite map_map. reflexivity.
  - cbn [map]. rewrite IH. reflexivity.
Qed.

Lemma with_parameters_twice (l : list Model) (ps ps' : list Par) :
  length ps = length (parameters l) ->
  length ps' = length (parameters l) ->
  with_parameters (with_parameters l ps) ps' = with_parameters l ps'.
Proof.
  revert ps ps'. induction l as [|m l IH]; intros ps ps' Hl Hl';
    [reflexivity|].
  cbn [parameters flat_map] in Hl, Hl'. fold (parameters l) in Hl, Hl'.
  rewrite length_app in Hl, Hl'.
  assert (Hk : length (model_parameters m) = S (length (other_parameters m)))
    by reflexivity.
  cbn [with_parameters].
  set (k := length (model_parameters m)) in *.
  assert (Hf : length (firstn k ps) = k) by (rewrite length_firstn; lia).
  assert (Hf' : length (firstn k ps') = k) by (rewrite length_firstn; lia).
  assert (Hmp : model_parameters (model_with_parameters m (firstn k ps))
                = firstn k ps).
  { apply model_with_parameters_parameters. intros E. rewrite E in Hf.
    cbn in Hf. lia. }
  rewrite Hmp, Hf. f_equal.
  - destruct (firstn k ps) as [|a A] eqn:EA; [cbn in Hf; lia|].
    destruct (firstn k ps') as [|b B] eqn:EB; [cbn in Hf'; lia|].
    reflexivity.
  - apply IH; rewrite length_skipn; lia.
Qed.

Lemma freeze_others_rel (key : string) (l : list Model) :
  Forall2 (fun p0 p1 => value p1 = value p0 /\
                        (frozen p0 = true -> frozen p1 = true))
    (parameters l) (parameters (freeze_others key l)).
Proof.
  assert (Hfr : forall ps : list Par,
    Forall2 (fun p0 p1 => value p1 = value p0 /\
                          (frozen p0 = true -> frozen p1 = true))
      ps (map freeze ps)).
  { induction ps; constructor; auto. }
  assert (Hid : forall ps : list Par,
    Forall2 (fun p0 p1 => value p1 = value p0 /\
                          (frozen p0 = true -> frozen p1 = true)) ps ps).
  { induction ps; constructor; auto. }
  induction l as [|m l IH]; [constructor|].
  cbn [freeze_others]. destruct (String.eqb (model_name m) key).
  - cbn [parameters flat_map]. apply Forall2_app; [apply Hid|].
    clear. induction l as [|m' l IH]; [constructor|].
    cbn [map flat_map]. apply Forall2_app; [|exact IH].
    rewrite freeze_model_parameters.
    induction (model_parameters m'); constructor; auto.
  - cbn [parameters flat_map]. apply Forall2_app; [|exact IH].
    rewrite freeze_model_parameters. apply Hfr.
Qed.

Lemma zip_with_rest_nil {A : Type} (f : Par -> A -> Par) (ps : list Par) :
  zip_with_rest f ps [] = ps.
Proof. destruct ps; reflexivity. Qed.

Lemma zip_par_kept (ps0 ps1 : list Par) (vals : list npfloat) :
  Forall2 (fun p0 p1 => value p1 = value p0 /\
                        (frozen p0 = true -> frozen p1 = true)) ps0 ps1 ->
  Forall2 par_kept ps0
    (zip_with_rest set_frozen (zip_with_rest set_fitted ps1 vals)
       (map frozen ps0)).
Proof.
  intros HF. revert vals.
  induction HF as [|p0 p1 ps0 ps1 [Hv Hf] HF IH]; intros vals;
    [destruct vals; constructor|].
  assert (Hhead : forall q : Par,
            (frozen p0 = true -> value q = value p0) ->
            par_kept p0 (set_frozen q (frozen p0))).
  { intros q Hq. split; [reflexivity|]. intros Hfz.
    unfold set_frozen. rewrite (Hq Hfz). apply par_eta. }
  destruct vals as [|v vals]; cbn [map zip_with_rest].
  - constructor; [apply Hhead; auto |].
    pose proof (IH []) as IH0. rewrite zip_with_rest_nil in IH0. exact IH0.
  - constructor; [|apply IH].
    unfold set_fitted. destruct (frozen p1) eqn:E1.
    + apply Hhead; auto.
    + apply Hhead. intros Hfz. discriminate (Hf Hfz).
Qed.

Section FitInvariants.
Context `{DatasetOps}.

End FitInvariants.

Lemma make_default_appends_background_witness :
  let ds' := @make_default_fov_background_model ex_dataset_ops
               (ex_maker "scale") ex_source_dataset in
  ds_name ds' = "obs"%string /\
  exists bkg,
    models ds' = Some (default [] (models ex_source_dataset) ++ [bkg]) /\
    model_name bkg = "obs-bkg"%string /\
    background_model ds' = Some bkg.
Proof.
  destruct (@make_default_appends_background ex_dataset_ops
              (ex_maker "scale") ex_source_dataset eq_refl)
    as (Hn & _ & _ & bkg & Hm & Hname & _ & Hb).
  split; [exact Hn|]. exists bkg. repeat split; assumption.
Defined.



End FoVBackgroundMakerFacts.
